(** * generate_detailed_qa_pairs.py: handbook entries to question/answer pairs

    A shallow embedding of the script [generate_detailed_qa_pairs.py] and the
    properties of its loader, extractor and expander.

    Conventions.
    - A Python [str] is a list of characters; a character is a code point
      below 256, so the whitespace class is Python's restricted to that
      range.
    - Exceptions are values of [exn]; a pure fallible function returns a
      [result], a statement that touches the output list or the random
      generator lives in the monad [M], whose state survives a raise (what
      was appended before the raise stays appended).
    - The [re] and [random] library functions the script calls are modelled
      in [Module Re] and by the class [Random]. *)

From Stdlib Require Import String.
From Stdlib Require Import List Ascii Bool Arith Lia ZArith Permutation.
Import ListNotations.

Set Implicit Arguments.

(* ===================================================================== *)
(** ** Python strings *)
(* ===================================================================== *)

Definition str := list ascii.

(** [lit "abc"] is the Python literal ["abc"]. *)
Definition lit (s : String.string) : str := String.list_ascii_of_string s.

Fixpoint str_eqb (a b : str) : bool :=
  match a, b with
  | [], [] => true
  | x :: a', y :: b' => Ascii.eqb x y && str_eqb a' b'
  | _, _ => false
  end.

(** [str.isspace] on one character, for code points below 256:
    U+0009..U+000D, U+001C..U+001F, U+0020, U+0085 and U+00A0. *)
Definition is_space (c : ascii) : bool :=
  let n := nat_of_ascii c in
  ((9 <=? n) && (n <=? 13)) || ((28 <=? n) && (n <=? 32))
  || (n =? 133) || (n =? 160).

Fixpoint lstrip (s : str) : str :=
  match s with
  | c :: s' => if is_space c then lstrip s' else s
  | [] => []
  end.

Definition rstrip (s : str) : str := rev (lstrip (rev s)).

(** [s.strip()] *)
Definition strip (s : str) : str := rstrip (lstrip s).

(** [s[len(p):]] when [s.startswith(p)]. *)
Fixpoint strip_prefix (cmp : ascii -> ascii -> bool) (p s : str) : option str :=
  match p, s with
  | [], _ => Some s
  | x :: p', y :: s' => if cmp x y then strip_prefix cmp p' s' else None
  | _ :: _, [] => None
  end.

(** [sub in s] for two strings. *)
Fixpoint contains (sub s : str) : bool :=
  match strip_prefix Ascii.eqb sub s with
  | Some _ => true
  | None => match s with
            | [] => false
            | _ :: s' => contains sub s'
            end
  end.

(* ===================================================================== *)
(** ** Exceptions and results *)
(* ===================================================================== *)

Inductive exn : Type :=
| ValueError (msg : str)
| TypeError
| KeyError (key : str)
| IndexError
| AttributeError.

Inductive result (A : Type) : Type :=
| Ok (a : A)
| Raise (e : exn).

Arguments Ok {A} a.
Arguments Raise {A} e.

Definition rbind {A B} (r : result A) (f : A -> result B) : result B :=
  match r with
  | Ok a => f a
  | Raise e => Raise e
  end.

Declare Scope result_scope.
Delimit Scope result_scope with result.
Notation "x <- c ;; k" := (rbind c (fun x => k))
  (at level 61, c at next level, right associativity) : result_scope.

(* ===================================================================== *)
(** ** The regular expressions of the script

    The fragment of Python's [re] the script uses: literals, [.], [\s],
    [?], [*], [+] and their lazy forms on one character, groups,
    alternation and lookahead, under the flags IGNORECASE and DOTALL.
    Matching is the backtracking search of [re]: alternatives are tried in
    order, and the first way to complete the whole match wins. *)
(* ===================================================================== *)

Module Re.

Inductive atom : Type :=
| Dot                       (* .  *)
| Space                     (* \s *)
| Chr (c : ascii).

Inductive regex : Type :=
| Lit (s : str)
| Opt (a : atom)                    (* a?          *)
| Star (a : atom) (greedy : bool)   (* a*  or a*?  *)
| Plus (a : atom) (greedy : bool)   (* a+  or a+?  *)
| Cat (r1 r2 : regex)
| Alt (r1 r2 : regex)               (* r1|r2       *)
| Group (i : nat) (r : regex)       (* ( r ), the i-th group *)
| Ahead (r : regex).                (* (?= r )     *)

Record flags : Type := { ignorecase : bool; dotall : bool }.

Definition no_flags : flags := {| ignorecase := false; dotall := false |}.
Definition DOTALL : flags := {| ignorecase := false; dotall := true |}.
Definition IGNORECASE_DOTALL : flags := {| ignorecase := true; dotall := true |}.

(** Lower case of an ASCII letter; the patterns hold ASCII letters only,
    and under IGNORECASE such a letter matches its two cases. *)
Definition lower (c : ascii) : ascii :=
  let n := nat_of_ascii c in
  if (65 <=? n) && (n <=? 90) then ascii_of_nat (n + 32) else c.

Definition chr_eq (fl : flags) (p c : ascii) : bool :=
  if ignorecase fl then Ascii.eqb (lower p) (lower c) else Ascii.eqb p c.

Definition newline : ascii := ascii_of_nat 10.

Definition atom_ok (fl : flags) (a : atom) (c : ascii) : bool :=
  match a with
  | Dot => dotall fl || negb (Ascii.eqb c newline)
  | Space => is_space c
  | Chr p => chr_eq fl p c
  end.

(** Captured groups, the most recent first. *)
Definition caps := list (nat * str).

Fixpoint group (c : caps) (i : nat) : option str :=
  match c with
  | [] => None
  | (j, s) :: c' => if j =? i then Some s else group c' i
  end.

(** The text between the position [s] and the later position [s']. *)
Definition consumed (s s' : str) : str := firstn (length s - length s') s.

Section Exec.
Variable fl : flags.

(** [a*?]: the shortest run of [a] after which the rest matches. *)
Fixpoint lazy_star {A} (a : atom) (s : str) (k : str -> option A) : option A :=
  match k s with
  | Some x => Some x
  | None => match s with
            | c :: s' => if atom_ok fl a c then lazy_star a s' k else None
            | [] => None
            end
  end.

(** [a*]: the longest run of [a] after which the rest matches. *)
Fixpoint greedy_star {A} (a : atom) (s : str) (k : str -> option A) : option A :=
  match s with
  | c :: s' =>
      if atom_ok fl a c
      then match greedy_star a s' k with
           | Some x => Some x
           | None => k s
           end
      else k s
  | [] => k s
  end.

Definition star {A} (greedy : bool) (a : atom) (s : str) (k : str -> option A) : option A :=
  if greedy then greedy_star a s k else lazy_star a s k.

(** [exec r s c k]: match [r] at the front of [s] with the groups [c]
    already captured, and hand the rest of the text and the groups to
    [k]; when [k] refuses, the next way to match [r] is tried. *)
Fixpoint exec (r : regex) {A} (s : str) (c : caps) (k : str -> caps -> option A) : option A :=
  match r with
  | Lit p =>
      match strip_prefix (chr_eq fl) p s with
      | Some s' => k s' c
      | None => None
      end
  | Opt a =>
      match s with
      | x :: s' =>
          if atom_ok fl a x
          then match k s' c with
               | Some v => Some v
               | None => k s c
               end
          else k s c
      | [] => k s c
      end
  | Star a g => star g a s (fun s' => k s' c)
  | Plus a g =>
      match s with
      | x :: s' => if atom_ok fl a x then star g a s' (fun s'' => k s'' c) else None
      | [] => None
      end
  | Cat r1 r2 => exec r1 s c (fun s' c' => exec r2 s' c' k)
  | Alt r1 r2 =>
      match exec r1 s c k with
      | Some v => Some v
      | None => exec r2 s c k
      end
  | Group i r' => exec r' s c (fun s' c' => k s' ((i, consumed s s') :: c'))
  | Ahead r' =>
      match exec r' s c (fun _ c' => Some c') with
      | Some c' => k s c'
      | None => None
      end
  end.

(** A match of [r] at the front of [s]: the rest of the text and the groups. *)
Definition match_here (r : regex) (s : str) : option (str * caps) :=
  exec r s [] (fun s' c => Some (s', c)).

(** [re.search(r, s)]: the match at the leftmost position that has one. *)
Fixpoint search (r : regex) (s : str) : option caps :=
  match match_here r s with
  | Some (_, c) => Some c
  | None => match s with
            | [] => None
            | _ :: s' => search r s'
            end
  end.

(** [re.finditer(r, s)], for a pattern whose matches are never empty
    (every pattern of the script starts with a literal or is [\s+]):
    the matches from left to right, each search starting where the
    previous match ended. [skip] counts the characters of the current
    match still to pass. *)
Fixpoint finditer_from (r : regex) (s : str) (skip : nat) : list caps :=
  match skip with
  | S n => match s with
           | [] => []
           | _ :: s' => finditer_from r s' n
           end
  | 0 =>
      match match_here r s with
      | Some (s', c) =>
          c :: match s with
               | [] => []
               | _ :: t => finditer_from r t (length s - length s' - 1)
               end
      | None => match s with
                | [] => []
                | _ :: t => finditer_from r t 0
                end
      end
  end.

Definition finditer (r : regex) (s : str) : list caps := finditer_from r s 0.

(** [re.findall(r, s)] for a pattern with one group: the texts of group 1. *)
Definition findall (r : regex) (s : str) : list str :=
  flat_map (fun c => match group c 1 with Some g => [g] | None => [] end)
           (finditer r s).

(** [re.sub(r, repl, s)] for a pattern whose matches are never empty
    and a replacement without group references. *)
Fixpoint sub_from (r : regex) (repl : str) (s : str) (skip : nat) : str :=
  match skip with
  | S n => match s with
           | [] => []
           | _ :: s' => sub_from r repl s' n
           end
  | 0 =>
      match match_here r s with
      | Some (s', _) =>
          repl ++ match s with
                  | [] => []
                  | _ :: t => sub_from r repl t (length s - length s' - 1)
                  end
      | None => match s with
                | [] => []
                | x :: t => x :: sub_from r repl t 0
                end
      end
  end.

Definition sub (r : regex) (repl : str) (s : str) : str := sub_from r repl s 0.

End Exec.

End Re.

(* ===================================================================== *)
(** ** Python values: dicts, JSON documents, [str.format] *)
(* ===================================================================== *)

(** A [dict] with [str] keys, in insertion order. *)
Definition dict (V : Type) := list (str * V).

Fixpoint dict_get {V} (d : dict V) (k : str) : option V :=
  match d with
  | [] => None
  | (k', v) :: d' => if str_eqb k' k then Some v else dict_get d' k
  end.

(** [d[k] = v]: a key already present keeps its place and takes the new
    value, a new key goes to the end. *)
Fixpoint dict_set {V} (d : dict V) (k : str) (v : V) : dict V :=
  match d with
  | [] => [(k, v)]
  | (k', v') :: d' =>
      if str_eqb k' k then (k', v) :: d' else (k', v') :: dict_set d' k v
  end.

Definition keys {V} (d : dict V) : list str := map fst d.
Definition values {V} (d : dict V) : list V := map snd d.

(** [d.get(k, default)] *)
Definition dict_get_default {V} (d : dict V) (k : str) (default : V) : V :=
  match dict_get d k with
  | Some v => v
  | None => default
  end.

(** What [json.load] returns. An object is the dict it was loaded into, a
    number is kept as an integer (the script never looks inside one). *)
#[warnings="-register-all"] Inductive json : Type :=
| JNull
| JBool (b : bool)
| JNum (n : Z)
| JStr (s : str)
| JList (l : list json)
| JObj (d : list (str * json)).

(** [key in entry]: a key of a dict, an element of a list, a substring of a
    string; any other value is not iterable. *)
Definition py_in (key : str) (entry : json) : result bool :=
  match entry with
  | JObj d => Ok (existsb (fun kv => str_eqb (fst kv) key) d)
  | JList l => Ok (existsb (fun x => match x with
                                     | JStr s => str_eqb s key
                                     | _ => false
                                     end) l)
  | JStr s => Ok (contains key s)
  | _ => Raise TypeError
  end.

(** [entry[key]] for a [str] key: only a dict can be indexed by a string. *)
Definition getitem (entry : json) (key : str) : result json :=
  match entry with
  | JObj d => match dict_get d key with
              | Some v => Ok v
              | None => Raise (KeyError key)
              end
  | _ => Raise TypeError
  end.

Definition dquote : ascii := ascii_of_nat 34.
Definition lbrace : ascii := ascii_of_nat 123.
Definition rbrace : ascii := ascii_of_nat 125.

(** [py "a `b`"] is the text [a "b"]: a backquote stands for a double quote. *)
Definition py (s : String.string) : str :=
  map (fun c => if Ascii.eqb c (ascii_of_nat 96) then dquote else c) (lit s).

Local Open Scope list_scope.
Local Open Scope result_scope.

(** [template.format] with keyword arguments [kwargs], for templates whose replacement fields are
    plain names: text is copied, [{{] and [}}] give one brace, [{name}]
    gives [kwargs[name]]. [field] is [Some n] inside a replacement field
    whose name read so far is [n] reversed. *)
Fixpoint format_from (kwargs : dict str) (t : str) (field : option str) : result str :=
  match field, t with
  | None, [] => Ok []
  | None, c :: t' =>
      if Ascii.eqb c lbrace then
        match t' with
        | c' :: t'' =>
            if Ascii.eqb c' lbrace
            then (r <- format_from kwargs t'' None ;; Ok (lbrace :: r))
            else format_from kwargs t' (Some [])
        | [] => Raise (ValueError (lit "Single '{' encountered in format string"))
        end
      else if Ascii.eqb c rbrace then
        match t' with
        | c' :: t'' =>
            if Ascii.eqb c' rbrace
            then (r <- format_from kwargs t'' None ;; Ok (rbrace :: r))
            else Raise (ValueError (lit "Single '}' encountered in format string"))
        | [] => Raise (ValueError (lit "Single '}' encountered in format string"))
        end
      else (r <- format_from kwargs t' None ;; Ok (c :: r))
  | Some _, [] => Raise (ValueError (lit "expected '}' before end of string"))
  | Some name, c :: t' =>
      if Ascii.eqb c rbrace then
        match name with
        | [] => Raise IndexError
        | _ => match dict_get kwargs (rev name) with
               | Some v => r <- format_from kwargs t' None ;; Ok (v ++ r)
               | None => Raise (KeyError (rev name))
               end
        end
      else format_from kwargs t' (Some (c :: name))
  end.

Definition format (t : str) (kwargs : dict str) : result str :=
  format_from kwargs t None.

(* ===================================================================== *)
(** ** The question templates *)
(* ===================================================================== *)

Definition SECTION_QUESTIONS : dict (list str) :=
  [ (lit "1",
     [ lit "What is the immediate action a driver should take when seeing the '{sign}' sign?";
       lit "When is the '{sign}' sign typically used?";
       lit "What safety rule does section {section} enforce in the '{sign}' sign?" ]);
    (lit "2",
     [ lit "What should a driver do at a '{sign}' when there is no stop line?";
       lit "How does a driver react to a '{sign}' when there's a pedestrian crossing?";
       lit "What does section {section} of the '{sign}' sign indicate?" ]);
    (lit "3",
     [ lit "How should the driver behave in construction zones near a '{sign}'?";
       lit "What does the '{sign}' indicate at a railway crossing?";
       lit "What special caution is required in section {section} of the '{sign}' sign?" ]);
    (lit "4",
     [ lit "When is it prohibited to stop near a '{sign}'?";
       lit "What are unsafe stopping locations for a driver near a '{sign}'?";
       lit "Why must a driver be extra careful around section {section} of the '{sign}' sign?" ]) ].

Definition GENERIC_SECTION_TEMPLATES : list str :=
  [ lit "What does section {section} of the '{sign}' sign mean?";
    lit "Explain the rule under section {section} for the '{sign}' traffic sign.";
    lit "How should drivers behave according to section {section} of the '{sign}' sign?" ].

Definition KEYWORD_TEMPLATES : list str :=
  [ lit "How is '{kw}' handled when a driver encounters the '{sign}' sign?";
    lit "Explain why '{kw}' is important under the '{sign}' sign.";
    lit "What is the implication of '{kw}' for drivers near the '{sign}' sign?";
    lit "In what situation does '{kw}' apply under the '{sign}' sign?" ].

Definition SCENARIO_TEMPLATES : list str :=
  [ lit "If a driver is near a '{sign}' sign and sees '{kw}', what should they do?";
    lit "Describe what action should be taken if '{kw}' occurs near a '{sign}' sign.";
    lit "Why must a driver be cautious of '{kw}' when the '{sign}' sign is present?";
    lit "What could happen if a driver ignores the '{kw}' instruction under the '{sign}' sign?" ].

(* ===================================================================== *)
(** ** Extractor *)
(* ===================================================================== *)

Import Re.

(** [<traffic_sign name="(.+?)">] *)
Definition SIGN_NAME_RE : regex :=
  Cat (Lit (lit "<traffic_sign name=" ++ [dquote]))
      (Cat (Group 1 (Plus Dot false)) (Lit (dquote :: lit ">"))).

(** [<section title="(.+?)">(.*?)(?=<section title|KEY WORDS|</traffic_sign>)] *)
Definition SECTION_RE : regex :=
  Cat (Lit (lit "<section title=" ++ [dquote]))
      (Cat (Group 1 (Plus Dot false))
           (Cat (Lit (dquote :: lit ">"))
                (Cat (Group 2 (Star Dot false))
                     (Ahead (Alt (Lit (lit "<section title"))
                                 (Alt (Lit (lit "KEY WORDS"))
                                      (Lit (lit "</traffic_sign>")))))))).

(** [\s+] *)
Definition WHITESPACE_RE : regex := Plus Space true.

(** [KEY ?WORDS?] followed by the group [( .* )] *)
Definition KEY_WORDS_RE : regex :=
  Cat (Lit (lit "KEY"))
      (Cat (Opt (Chr " "%char))
           (Cat (Lit (lit "WORD"))
                (Cat (Opt (Chr "S"%char)) (Group 1 (Star Dot true))))).

(** A double quote, the group [( .*? )], a double quote. *)
Definition QUOTED_RE : regex :=
  Cat (Lit [dquote]) (Cat (Group 1 (Star Dot false)) (Lit [dquote])).

(** [match.group(i).strip()]: a group that took no part in the match is
    [None], which has no [strip]. *)
Definition group_strip (m : caps) (i : nat) : result str :=
  match group m i with
  | Some g => Ok (strip g)
  | None => Raise AttributeError
  end.

(** One turn of the loop over [matches]: the title and the body of a match. *)
Definition block_of (m : caps) : result (str * str) :=
  title <- group_strip m 1 ;;
  body0 <- group_strip m 2 ;;
  Ok (title, Re.sub no_flags WHITESPACE_RE (lit " ") body0).

(** The loop over [matches] of [extract_flowchart_sections]. *)
Fixpoint collect_sections (matches : list caps) (sections : dict str) : result (dict str) :=
  match matches with
  | [] => Ok sections
  | m :: rest =>
      block <- block_of m ;;
      collect_sections rest (dict_set sections (fst block) (snd block))
  end.

(** [re] functions accept a [str] only. *)
Definition as_str (v : json) : result str :=
  match v with
  | JStr s => Ok s
  | _ => Raise TypeError
  end.

Definition extract_flowchart_sections (gt : json) : result (str * dict str) :=
  s <- as_str gt ;;
  let sign_name_match := Re.search no_flags SIGN_NAME_RE s in
  name <- match sign_name_match with
          | Some m => group_strip m 1
          | None => Ok (lit "Unknown")
          end ;;
  let matches := Re.finditer DOTALL SECTION_RE s in
  sections <- collect_sections matches [] ;;
  Ok (name, sections).

(** The body of the [try] of [extract_keywords]; [None] when control
    leaves the [if] without returning. *)
Definition extract_keywords_try (gt : json) : result (option (list str)) :=
  s <- as_str gt ;;
  match Re.search IGNORECASE_DOTALL KEY_WORDS_RE s with
  | Some keyword_match =>
      match group keyword_match 1 with
      | Some kw_section => Ok (Some (Re.findall no_flags QUOTED_RE kw_section))
      | None => Raise TypeError
      end
  | None => Ok None
  end.

(** The bare [except: pass] swallows every exception. *)
Definition extract_keywords (gt : json) : list str :=
  match extract_keywords_try gt with
  | Ok (Some kws) => kws
  | Ok None => []
  | Raise _ => []
  end.

(* ===================================================================== *)
(** ** Loader *)
(* ===================================================================== *)

(** The validation loop of [load_handbook]. *)
Fixpoint check_entries (entries : list json) : result unit :=
  match entries with
  | [] => Ok tt
  | entry :: rest =>
      has_image <- py_in (lit "image") entry ;;
      if negb has_image
      then Raise (ValueError (lit "Each entry must contain 'image' and 'ground_truth'."))
      else
        has_gt <- py_in (lit "ground_truth") entry ;;
        if negb has_gt
        then Raise (ValueError (lit "Each entry must contain 'image' and 'ground_truth'."))
        else check_entries rest
  end.

(** [load_handbook], from the value [json.load] returned. *)
Definition load_handbook (data : json) : result (list json) :=
  match data with
  | JList entries => _ <- check_entries entries ;; Ok entries
  | _ => Raise (ValueError (lit "Handbook data should be a list."))
  end.

(* ===================================================================== *)
(** ** Expander *)
(* ===================================================================== *)

(** One emitted record. *)
Record qa_pair : Type := {
  image : json;
  question : str;
  answer : str
}.

(** The two functions of Python's [random] module the script calls, on the
    arguments for which they return: [choice] on a non-empty sequence,
    [sample] on a population and a size not above its length. [rng] is the
    state of the process-wide generator. *)
Class Random : Type := {
  rng : Type;
  choice : rng -> list str -> str * rng;
  sample : rng -> list str -> nat -> list str * rng
}.

Section Expander.

Context {R : Random}.

(** What a run of the script changes: the generator, the list
    [qa_pairs] being built, and the diagnostics printed so far (one per
    skipped entry, the exception it reports). *)
Record state : Type := {
  generator : rng;
  qa_pairs : list qa_pair;
  printed : list exn
}.

(** A statement: from a state to a value or a raised exception, and the
    state at that point. *)
Definition M (A : Type) : Type := state -> result A * state.

Definition ret {A} (a : A) : M A := fun st => (Ok a, st).

Definition raise {A} (e : exn) : M A := fun st => (Raise e, st).

Definition bind {A B} (m : M A) (f : A -> M B) : M B :=
  fun st =>
    match m st with
    | (Ok a, st') => f a st'
    | (Raise e, st') => (Raise e, st')
    end.

(** A pure fallible expression as a statement. *)
Definition lift {A} (r : result A) : M A := fun st => (r, st).

(** [try: body except Exception as e: handler(e)] *)
Definition try_except (body : M unit) (handler : exn -> M unit) : M unit :=
  fun st =>
    match body st with
    | (Ok tt, st') => (Ok tt, st')
    | (Raise e, st') => handler e st'
    end.

(** [for x in l: body(x)] *)
Fixpoint for_each {A} (l : list A) (body : A -> M unit) : M unit :=
  match l with
  | [] => ret tt
  | x :: rest => bind (body x) (fun _ => for_each rest body)
  end.

End Expander.

Declare Scope stmt_scope.
Delimit Scope stmt_scope with stmt.
Notation "x <- c ;; k" := (bind c (fun x => k))
  (at level 61, c at next level, right associativity) : stmt_scope.
Notation "c ;; k" := (bind c (fun _ => k))
  (at level 61, right associativity) : stmt_scope.

Section Generate.

Context {R : Random}.

(** [qa_pairs.append(record)] *)
Definition append (record : qa_pair) : M unit :=
  fun st => (Ok tt, {| generator := generator st;
                       qa_pairs := qa_pairs st ++ [record];
                       printed := printed st |}).

(** [print] of the skip diagnostic for the exception [e]. *)
Definition print_skipped (e : exn) : M unit :=
  fun st => (Ok tt, {| generator := generator st;
                       qa_pairs := qa_pairs st;
                       printed := printed st ++ [e] |}).

(** [random.sample(population, k)] *)
Definition random_sample (population : list str) (k : nat) : M (list str) :=
  fun st =>
    if k <=? length population
    then let (picked, g) := sample (generator st) population k in
         (Ok picked, {| generator := g;
                        qa_pairs := qa_pairs st;
                        printed := printed st |})
    else (Raise (ValueError (lit "Sample larger than population or is negative")), st).

(** [random.choice(seq)] *)
Definition random_choice (seq : list str) : M str :=
  fun st =>
    match seq with
    | [] => (Raise IndexError, st)
    | _ :: _ => let (picked, g) := choice (generator st) seq in
                (Ok picked, {| generator := g;
                               qa_pairs := qa_pairs st;
                               printed := printed st |})
    end.

(** A dict is true when it is not empty. *)
Definition truthy {V} (d : dict V) : bool :=
  match d with
  | [] => false
  | _ :: _ => true
  end.

(** The f-string that builds a keyword answer. *)
Definition keyword_answer (sign_name kw chosen_section : str) : str :=
  lit "In the context of the '" ++ sign_name ++ lit "' sign, the keyword '"
      ++ kw ++ lit "' relates to: " ++ chosen_section.

(** [SECTION_QUESTIONS.get(section_no, GENERIC_SECTION_TEMPLATES)] *)
Definition section_templates (section_no : str) : list str :=
  dict_get_default SECTION_QUESTIONS section_no GENERIC_SECTION_TEMPLATES.

Definition section_kwargs (sign_name section_no : str) : dict str :=
  [(lit "sign", sign_name); (lit "section", section_no)].

Definition keyword_kwargs (kw sign_name : str) : dict str :=
  [(lit "kw", kw); (lit "sign", sign_name)].

Local Open Scope stmt_scope.

(** The body of the [try] of [generate_qa_pairs], for one entry. *)
Definition expand_entry (img_path gt : json) : M unit :=
  extracted <- lift (extract_flowchart_sections gt) ;;
  let sign_name := fst extracted in
  let sections := snd extracted in
  let keywords := extract_keywords gt in
  for_each sections (fun item =>
    let section_no := fst item in
    let section_text := snd item in
    let templates := section_templates section_no in
    for_each templates (fun q_template =>
      question <- lift (format q_template (section_kwargs sign_name section_no)) ;;
      append {| image := img_path; question := question; answer := section_text |})) ;;
  sampled_keywords <- random_sample keywords (Nat.min (length keywords) 5) ;;
  for_each sampled_keywords (fun kw =>
    chosen_section <- (if truthy sections
                       then random_choice (values sections)
                       else ret (lit "Refer to sign rules.")) ;;
    for_each (KEYWORD_TEMPLATES ++ SCENARIO_TEMPLATES) (fun kw_q_template =>
      question <- lift (format kw_q_template (keyword_kwargs kw sign_name)) ;;
      let answer := keyword_answer sign_name kw chosen_section in
      append {| image := img_path; question := question; answer := answer |})).

(** One turn of the loop over [handbook_data]: the two field reads are
    outside the [try], the rest is inside. *)
Definition process_entry (entry : json) : M unit :=
  img_path <- lift (getitem entry (lit "image")) ;;
  gt <- lift (getitem entry (lit "ground_truth")) ;;
  try_except (expand_entry img_path gt) print_skipped.

(** [qa_pairs = []] *)
Definition new_qa_pairs : M unit :=
  fun st => (Ok tt, {| generator := generator st;
                       qa_pairs := [];
                       printed := printed st |}).

Definition get_qa_pairs : M (list qa_pair) :=
  fun st => (Ok (qa_pairs st), st).

Definition generate_qa_pairs (handbook_data : list json) : M (list qa_pair) :=
  new_qa_pairs ;;
  for_each handbook_data process_entry ;;
  get_qa_pairs.

End Generate.

(** A generator for running the script on examples: its state is a
    counter, [choice] takes the element at the counter modulo the length,
    [sample] takes the first [k] elements of the population rotated by the
    counter. *)
Definition rotate (n : nat) (l : list str) : list str :=
  skipn (n mod length l) l ++ firstn (n mod length l) l.

#[local] Instance counter_random : Random := {|
  rng := nat;
  choice := fun g seq => (nth (g mod length seq) seq [], S g);
  sample := fun g population k => (firstn k (rotate g population), S g)
|}.

Definition initial (g : nat) : state :=
  {| generator := g; qa_pairs := []; printed := [] |}.

(* ===================================================================== *)
(** ** The vocabulary of the properties *)
(* ===================================================================== *)

(** *** What a match can be

    [matches fl r s c rest c']: the pattern [r] can match at the front of
    [s], leaving [rest] and turning the groups [c] into [c']. The relation
    leaves the order of the attempts out: every match [exec] finds is one
    of these. *)
Inductive matches (fl : Re.flags) : Re.regex -> str -> Re.caps -> str -> Re.caps -> Prop :=
| M_Lit p s rest c :
    strip_prefix (Re.chr_eq fl) p s = Some rest ->
    matches fl (Re.Lit p) s c rest c
| M_Opt_take a x s c :
    Re.atom_ok fl a x = true ->
    matches fl (Re.Opt a) (x :: s) c s c
| M_Opt_skip a s c :
    matches fl (Re.Opt a) s c s c
| M_Star a g run rest c :
    forallb (Re.atom_ok fl a) run = true ->
    matches fl (Re.Star a g) (run ++ rest) c rest c
| M_Plus a g x run rest c :
    Re.atom_ok fl a x = true ->
    forallb (Re.atom_ok fl a) run = true ->
    matches fl (Re.Plus a g) (x :: run ++ rest) c rest c
| M_Cat r1 r2 s c s1 c1 s2 c2 :
    matches fl r1 s c s1 c1 ->
    matches fl r2 s1 c1 s2 c2 ->
    matches fl (Re.Cat r1 r2) s c s2 c2
| M_Alt_left r1 r2 s c rest c' :
    matches fl r1 s c rest c' ->
    matches fl (Re.Alt r1 r2) s c rest c'
| M_Alt_right r1 r2 s c rest c' :
    matches fl r2 s c rest c' ->
    matches fl (Re.Alt r1 r2) s c rest c'
| M_Group i r s c rest c' :
    matches fl r s c rest c' ->
    matches fl (Re.Group i r) s c rest ((i, Re.consumed s rest) :: c')
| M_Ahead r s c rest c' :
    matches fl r s c rest c' ->
    matches fl (Re.Ahead r) s c s c'.

(** The three ways a section body can end: what the lookahead of
    [SECTION_RE] accepts. *)
Definition section_end (s : str) : Prop :=
  (exists t, s = lit "<section title" ++ t) \/
  (exists t, s = lit "KEY WORDS" ++ t) \/
  (exists t, s = lit "</traffic_sign>" ++ t).

(** The section blocks of a text in scan order: title and body of every
    match of [SECTION_RE]. *)
Definition section_blocks (s : str) : list (str * str) :=
  flat_map (fun m => match block_of m with
                     | Ok block => [block]
                     | Raise _ => []
                     end)
           (Re.finditer Re.DOTALL SECTION_RE s).

Definition str_dec : forall a b : str, {a = b} + {a <> b} :=
  list_eq_dec ascii_dec.

(** Storing blocks in a dict, one after the other. *)
Definition store_blocks (blocks : list (str * str)) (d : dict str) : dict str :=
  fold_left (fun d block => dict_set d (fst block) (snd block)) blocks d.

(** The dict [extract_flowchart_sections] builds from a text. *)
Definition sections_of (s : str) : dict str :=
  store_blocks (section_blocks s) [].

(** The sign name [extract_flowchart_sections] returns for a text. *)
Definition sign_name_of (s : str) : str :=
  match Re.search Re.no_flags SIGN_NAME_RE s with
  | Some m => match Re.group m 1 with
              | Some g => strip g
              | None => []
              end
  | None => lit "Unknown"
  end.

(** The text carries a sign tag: [<traffic_sign name="], a name of at
    least one character and without a line break, and [">]. *)
Definition has_sign_tag (s : str) : Prop :=
  exists before name after,
    s = before ++ (lit "<traffic_sign name=" ++ [dquote]) ++ name
               ++ (dquote :: lit ">") ++ after /\
    name <> [] /\ ~ In Re.newline name.

(** [chunk] holds one record per template of [templates], in order: the
    template formatted with [kwargs] as question, [img] as image and [ans]
    as answer. *)
Definition instantiates (templates : list str) (kwargs : dict str)
           (img : json) (ans : str) (chunk : list qa_pair) : Prop :=
  Forall2 (fun t r => format t kwargs = Ok (question r) /\
                      image r = img /\ answer r = ans)
          templates chunk.

(** The entry is a mapping that has the field [key]. *)
Definition has_field (key : str) (entry : json) : Prop :=
  exists d v, entry = JObj d /\ dict_get d key = Some v.

(** *** The records of one entry, as a function

    What [expand_entry] appends for a text entry, written without the
    state: used to state what the loops do. *)

(** The question a template gives; a template that does not format gives
    no text (none of the script's templates is such). *)
Definition rendered (t : str) (kwargs : dict str) : str :=
  match format t kwargs with
  | Ok q => q
  | Raise _ => []
  end.

Definition section_pairs (img : json) (sign_name : str) (item : str * str) : list qa_pair :=
  map (fun t => {| image := img;
                   question := rendered t (section_kwargs sign_name (fst item));
                   answer := snd item |})
      (section_templates (fst item)).

Definition keyword_pairs (img : json) (sign_name : str) (draw : str * str) : list qa_pair :=
  map (fun t => {| image := img;
                   question := rendered t (keyword_kwargs (fst draw) sign_name);
                   answer := keyword_answer sign_name (fst draw) (snd draw) |})
      (KEYWORD_TEMPLATES ++ SCENARIO_TEMPLATES).

Section Outcome.

Context {R : Random}.

Definition add_pairs (st : state) (l : list qa_pair) : state :=
  {| generator := generator st;
     qa_pairs := qa_pairs st ++ l;
     printed := printed st |}.

Definition with_generator (st : state) (g : rng) : state :=
  {| generator := g; qa_pairs := qa_pairs st; printed := printed st |}.

Definition add_printed (st : state) (e : exn) : state :=
  {| generator := generator st;
     qa_pairs := qa_pairs st;
     printed := printed st ++ [e] |}.

(** The body chosen for one keyword, from the generator state [g]. *)
Definition choose_section (sections : dict str) (g : rng) : str * rng :=
  match values sections with
  | [] => (lit "Refer to sign rules.", g)
  | _ :: _ => choice g (values sections)
  end.

(** The bodies chosen for the sampled keywords, one draw per keyword. *)
Fixpoint choose_sections (sections : dict str) (kws : list str) (g : rng)
  : list (str * str) * rng :=
  match kws with
  | [] => ([], g)
  | kw :: rest =>
      let (chosen, g1) := choose_section sections g in
      let (draws, g2) := choose_sections sections rest g1 in
      ((kw, chosen) :: draws, g2)
  end.

(** The keywords sampled for an entry whose keywords are [keywords]. *)
Definition sampled_keywords (keywords : list str) (g : rng) : list str * rng :=
  sample g keywords (Nat.min (length keywords) 5).

(** The draws of a text entry: the sampled keywords, each with the body
    chosen for it. *)
Definition entry_draws (s : str) (g : rng) : list (str * str) * rng :=
  let (kws, g1) := sampled_keywords (extract_keywords (JStr s)) g in
  choose_sections (sections_of s) kws g1.

(** The records of a text entry: the section pairs, then the keyword
    pairs of the sampled keywords with the bodies drawn for them. *)
Definition entry_pairs (img : json) (s : str) (g : rng) : list qa_pair :=
  flat_map (section_pairs img (sign_name_of s)) (sections_of s)
  ++ flat_map (keyword_pairs img (sign_name_of s)) (fst (entry_draws s g)).

(** Two states that differ at most in what was printed. *)
Definition same_run (st1 st2 : state) : Prop :=
  generator st1 = generator st2 /\ qa_pairs st1 = qa_pairs st2.

End Outcome.

Section Runs.

Context {R : Random}.

(** Two outcomes with the same value and states that differ at most in
    what was printed. *)
Definition same_outcome {A} (x y : result A * state) : Prop :=
  fst x = fst y /\ same_run (snd x) (snd y).

(** The loop of [generate_qa_pairs]. *)
Definition entries_loop (handbook_data : list json) : M unit :=
  for_each handbook_data process_entry.

End Runs.

(* ===================================================================== *)
(** ** Example inputs *)
(* ===================================================================== *)

(** The value of a result that is known to be [Ok]. *)
Definition ok_value {A} (r : result A) (default : A) : A :=
  match r with
  | Ok a => a
  | Raise _ => default
  end.

Definition entry_of (img : String.string) (gt : json) : json :=
  JObj [(lit "image", JStr (lit img)); (lit "ground_truth", gt)].

(** A sign with two sections and two keywords. *)
Definition stop_text : str :=
  py "<traffic_sign name=`Stop Sign`><section title=`1`>Stop body<section title=`2`>Yield body KEY WORDS: `stop`, `yield`</traffic_sign>".

Definition stop_entry : json := entry_of "stop.png" (JStr stop_text).

(** An entry whose ground truth is not a text. *)
Definition null_entry : json := entry_of "null.png" JNull.

(** No sections, one keyword. *)
Definition one_keyword_text : str := py "KEY WORDS: `stop`".

Definition one_keyword_entry : json := entry_of "kw.png" (JStr one_keyword_text).

(** No sign tag, a section whose number has no template set of its own. *)
Definition untagged_text : str :=
  py "<section title=`5`>Keep right. KEY WORDS: `lane`</traffic_sign>".

(** The same title twice. *)
Definition twice_text : str :=
  py "<section title=`1`>First<section title=`2`>Other<section title=`1`>Second</traffic_sign>".

(** The keyword marker in another case than [KEY WORDS]. *)
Definition lowercase_marker_text : str :=
  py "<traffic_sign name=`Stop`><section title=`1`>Stop here. Key Words: `stop`</traffic_sign>".

(** A string, not a mapping, as an element of the top-level list. *)
Definition plain_string : str := lit "image and ground_truth".

(** The run of the script on a text entry and an entry that is skipped,
    with the example generator. *)
Definition stop_run : result (list qa_pair) * state :=
  generate_qa_pairs [stop_entry; null_entry] (initial 0).

(* ===================================================================== *)
(** ** The run as a whole *)
(* ===================================================================== *)

(** A line the script prints. *)
Inductive line : Type :=
| SkippedEntry (e : exn)      (* Skipped entry due to error: e *)
| GeneratedPairs (n : nat)    (* Generated n detailed Q&A pairs. *)
| SavedTo                     (* Saved to: handbook/generated_qa_pairs_expanded.json *)
| ErrorInProcessing (cause : option exn).
                              (* Error in processing: e; [None] for an error
                                 of the file system or of the JSON parser *)

Section Main.

Context {R : Random}.

(** What [main] changes: the generator, the output file (its records, or
    [None] while the file does not exist) and the console. *)
Record world : Type := {
  w_generator : rng;
  output_file : option (list qa_pair);
  console : list line
}.

(** [main], from what reading the input file gives ([None] when [open] or
    [json.load] raises) and whether the output file can be opened for
    writing. Every exception ends in the handler of [main], which prints
    one line. The console is taken to accept every line printed: a [print]
    that raises, as on an output stream that cannot encode the symbol a
    line begins with, is outside this model, and so is what [main] does
    after it. *)
Definition main (input : option json) (can_write : bool) (w : world) : world :=
  match input with
  | None =>
      {| w_generator := w_generator w;
         output_file := output_file w;
         console := console w ++ [ErrorInProcessing None] |}
  | Some data =>
      match load_handbook data with
      | Raise e =>
          {| w_generator := w_generator w;
             output_file := output_file w;
             console := console w ++ [ErrorInProcessing (Some e)] |}
      | Ok handbook_data =>
          let (r, st) :=
            generate_qa_pairs handbook_data
              {| generator := w_generator w; qa_pairs := []; printed := [] |} in
          let skipped := map SkippedEntry (printed st) in
          match r with
          | Raise e =>
              {| w_generator := generator st;
                 output_file := output_file w;
                 console := console w ++ skipped ++ [ErrorInProcessing (Some e)] |}
          | Ok qa =>
              if can_write
              then {| w_generator := generator st;
                      output_file := Some qa;
                      console := console w ++ skipped
                                 ++ [GeneratedPairs (length qa); SavedTo] |}
              else {| w_generator := generator st;
                      output_file := output_file w;
                      console := console w ++ skipped ++ [ErrorInProcessing None] |}
          end
      end
  end.

End Main.

(** The entry is a mapping with the two fields. *)
Definition well_formed (entry : json) : Prop :=
  has_field (lit "image") entry /\ has_field (lit "ground_truth") entry.

(** The ground truth of the entry is a text: the entry is not skipped. *)
Definition has_text (entry : json) : bool :=
  match getitem entry (lit "ground_truth") with
  | Ok (JStr _) => true
  | _ => false
  end.

(** The number of records of an entry: 3 per section and 8 per keyword,
    of at most 5 keywords; none when its ground truth is not a text. *)
Definition entry_size (entry : json) : nat :=
  match getitem entry (lit "ground_truth") with
  | Ok gt =>
      match extract_flowchart_sections gt with
      | Ok (_, sections) =>
          3 * length sections + 8 * Nat.min (length (extract_keywords gt)) 5
      | Raise _ => 0
      end
  | Raise _ => 0
  end.

(** [s] starts with [p]. *)
Definition starts_with (p s : str) : Prop := exists t, s = p ++ t.

(** [a] and [b] are equal up to the case of their ASCII letters. *)
Definition same_letters (a b : str) : Prop := map Re.lower a = map Re.lower b.

(** The text carries the keyword marker in some case: KEYWORD or KEY WORD. *)
Definition has_keyword_marker (s : str) : Prop :=
  exists before marker after,
    s = before ++ marker ++ after /\
    (same_letters marker (lit "KEYWORD") \/ same_letters marker (lit "KEY WORD")).

(** No marker of the end of a section body comes after the opening of a
    section tag, as a check that computes. *)
Fixpoint no_marker_after_tag (s : str) : bool :=
  match strip_prefix Ascii.eqb (lit "<section title=" ++ [dquote]) s with
  | Some t => negb (contains (lit "<section title") t)
              && negb (contains (lit "KEY WORDS") t)
              && negb (contains (lit "</traffic_sign>") t)
  | None => true
  end
  && match s with
     | [] => true
     | _ :: s' => no_marker_after_tag s'
     end.

(** A sign tag stands at the front of [s]. *)
Definition tag_at (s : str) : Prop :=
  exists name rest,
    s = (lit "<traffic_sign name=" ++ [dquote]) ++ name ++ (dquote :: lit ">") ++ rest /\
    name <> [] /\ ~ In Re.newline name.

(** Every whitespace character of [s] is one space, with a character that
    is not whitespace right after it. *)
Fixpoint single_spaced (s : str) : bool :=
  match s with
  | [] => true
  | c :: s' =>
      (if is_space c
       then Ascii.eqb c " "%char
            && match s' with
               | [] => false
               | c' :: _ => negb (is_space c')
               end
       else true)
      && single_spaced s'
  end.

(** [s] does not end with a whitespace character. *)
Fixpoint clean_end (s : str) : bool :=
  match s with
  | [] => true
  | c :: s' => match s' with
               | [] => negb (is_space c)
               | _ :: _ => clean_end s'
               end
  end.

(* ===================================================================== *)
(** ** Properties of the string and matching functions *)
(* ===================================================================== *)

Lemma str_eqb_eq (a b : str) : str_eqb a b = true <-> a = b.
Proof.
  revert b; induction a as [|x a IH]; intros [|y b]; simpl; split;
    try congruence; try reflexivity.
  - intros H. apply andb_true_iff in H as [Hx Hab].
    apply Ascii.eqb_eq in Hx. apply IH in Hab. congruence.
  - intros H. injection H as -> ->.
    apply andb_true_iff; split; [apply Ascii.eqb_refl | now apply IH].
Qed.

Lemma str_eqb_refl (a : str) : str_eqb a a = true.
Proof. now apply str_eqb_eq. Qed.

Lemma str_eqb_neq (a b : str) : str_eqb a b = false <-> a <> b.
Proof.
  split.
  - intros H E. apply str_eqb_eq in E. congruence.
  - intros H. destruct (str_eqb a b) eqn:E; [|reflexivity].
    apply str_eqb_eq in E. contradiction.
Qed.

Lemma strip_prefix_exact cmp (p s s' : str) :
  (forall a b, cmp a b = true -> a = b) ->
  strip_prefix cmp p s = Some s' -> s = p ++ s'.
Proof.
  intros Hcmp. revert s; induction p as [|x p IH]; intros [|y s]; simpl;
    try congruence.
  destruct (cmp x y) eqn:E; [|discriminate].
  intros H. apply Hcmp in E. apply IH in H. congruence.
Qed.

Lemma strip_prefix_length cmp (p s s' : str) :
  strip_prefix cmp p s = Some s' -> length s = length p + length s'.
Proof.
  revert s; induction p as [|x p IH]; intros s; simpl.
  - intros H; injection H as ->. reflexivity.
  - destruct s as [|y s]; [discriminate|].
    destruct (cmp x y); [|discriminate]. intros H. apply IH in H. simpl. lia.
Qed.

Module ReFacts.
Import Re.

Lemma chr_eq_exact fl (a b : ascii) :
  ignorecase fl = false -> chr_eq fl a b = true -> a = b.
Proof. unfold chr_eq. intros ->. apply Ascii.eqb_eq. Qed.

Lemma consumed_app (a b : str) : consumed (a ++ b) b = a.
Proof.
  unfold consumed. rewrite length_app.
  replace (length a + length b - length b) with (length a) by lia.
  rewrite firstn_app, firstn_all, Nat.sub_diag. simpl. apply app_nil_r.
Qed.

(** A successful [a*?] splits the text into a run of [a] and a rest that
    the continuation accepts. *)
Lemma lazy_star_some fl A a (s : str) (k : str -> option A) x :
  lazy_star fl a s k = Some x ->
  exists run rest,
    s = run ++ rest /\ forallb (atom_ok fl a) run = true /\ k rest = Some x.
Proof.
  induction s as [|c s IH]; simpl.
  - destruct (k []) eqn:E; [|discriminate].
    intros H; injection H as ->. now exists [], [].
  - destruct (k (c :: s)) eqn:E.
    + intros H; injection H as ->. now exists [], (c :: s).
    + destruct (atom_ok fl a c) eqn:Hc; [|discriminate].
      intros H. destruct (IH H) as (run & rest & -> & Hrun & Hk).
      exists (c :: run), rest. simpl. rewrite Hc. auto.
Qed.

Lemma greedy_star_some fl A a (s : str) (k : str -> option A) x :
  greedy_star fl a s k = Some x ->
  exists run rest,
    s = run ++ rest /\ forallb (atom_ok fl a) run = true /\ k rest = Some x.
Proof.
  induction s as [|c s IH]; simpl.
  - intros H. now exists [], [].
  - destruct (atom_ok fl a c) eqn:Hc.
    + destruct (greedy_star fl a s k) eqn:E.
      * intros H; injection H as ->.
        destruct (IH eq_refl) as (run & rest & -> & Hrun & Hk).
        exists (c :: run), rest. simpl. rewrite Hc. auto.
      * intros H. now exists [], (c :: s).
    + intros H. now exists [], (c :: s).
Qed.

(** [re.search] returns a match that starts somewhere in the text. *)
Lemma search_some fl r (s : str) c :
  search fl r s = Some c ->
  exists before here rest,
    s = before ++ here /\ match_here fl r here = Some (rest, c).
Proof.
  induction s as [|x s IH]; simpl.
  - destruct (match_here fl r []) as [[rest c']|] eqn:E; [|discriminate].
    intros H; injection H as ->. now exists [], [], rest.
  - destruct (match_here fl r (x :: s)) as [[rest c']|] eqn:E.
    + intros H; injection H as ->. now exists [], (x :: s), rest.
    + intros H. destruct (IH H) as (before & here & rest & -> & Hm).
      now exists (x :: before), here, rest.
Qed.

(** No match anywhere: [re.search] returns [None]. *)
Lemma search_none fl r (s : str) :
  (forall before here, s = before ++ here -> match_here fl r here = None) ->
  search fl r s = None.
Proof.
  induction s as [|x s IH]; intros H; simpl.
  - now rewrite (H [] []).
  - rewrite (H [] (x :: s) eq_refl). apply IH.
    intros before here ->. apply (H (x :: before) here). reflexivity.
Qed.

(** Every match of [re.finditer] is a match at some position of the text. *)
Lemma finditer_from_matches fl r (s : str) skip :
  Forall (fun c => exists before here rest,
              s = before ++ here /\ match_here fl r here = Some (rest, c))
         (finditer_from fl r s skip).
Proof.
  revert skip; induction s as [|x s IH]; intros skip.
  - destruct skip; simpl; [|constructor].
    destruct (match_here fl r []) as [[rest c]|] eqn:E; constructor.
    + now exists [], [], rest.
    + constructor.
  - assert (Hshift : forall n,
               Forall (fun c => exists before here rest,
                           x :: s = before ++ here /\
                           match_here fl r here = Some (rest, c))
                      (finditer_from fl r s n)).
    { intros n. eapply Forall_impl; [|apply (IH n)].
      intros c (before & here & rest & -> & Hm).
      now exists (x :: before), here, rest. }
    destruct skip; simpl; [|apply Hshift].
    destruct (match_here fl r (x :: s)) as [[rest c]|] eqn:E.
    + constructor; [|apply Hshift]. now exists [], (x :: s), rest.
    + apply Hshift.
Qed.

End ReFacts.

Module ReSound.
Import Re ReFacts.

Lemma star_some fl A g a (s : str) (k : str -> option A) x :
  star fl g a s k = Some x ->
  exists run rest,
    s = run ++ rest /\ forallb (atom_ok fl a) run = true /\ k rest = Some x.
Proof.
  destruct g; [apply greedy_star_some | apply lazy_star_some].
Qed.

(** Every match the backtracking search completes is a possible match. *)
Lemma exec_sound fl r :
  forall A (s : str) (c : caps) (k : str -> caps -> option A) x,
    exec fl r s c k = Some x ->
    exists rest c', matches fl r s c rest c' /\ k rest c' = Some x.
Proof.
  induction r as [p|a|a g|a g|r1 IH1 r2 IH2|r1 IH1 r2 IH2|i r IH|r IH];
    intros A s c k x; cbn [exec].
  - destruct (strip_prefix (chr_eq fl) p s) as [rest|] eqn:E; [|discriminate].
    intros H. exists rest, c. split; [now constructor | assumption].
  - destruct s as [|y s].
    + intros H. exists [], c. split; [constructor | assumption].
    + destruct (atom_ok fl a y) eqn:Hy.
      * destruct (k s c) eqn:Hk.
        -- intros H; injection H as ->. exists s, c.
           split; [now constructor | assumption].
        -- intros H. exists (y :: s), c. split; [constructor | assumption].
      * intros H. exists (y :: s), c. split; [constructor | assumption].
  - intros H. apply star_some in H as (run & rest & -> & Hrun & Hk).
    exists rest, c. split; [now constructor | assumption].
  - destruct s as [|y s]; [discriminate|].
    destruct (atom_ok fl a y) eqn:Hy; [|discriminate].
    intros H. apply star_some in H as (run & rest & -> & Hrun & Hk).
    exists rest, c. split; [now constructor | assumption].
  - intros H. apply IH1 in H as (s1 & c1 & H1 & H).
    apply IH2 in H as (s2 & c2 & H2 & H).
    exists s2, c2. split; [econstructor; eassumption | assumption].
  - destruct (exec fl r1 s c k) eqn:E.
    + intros H; injection H as ->. apply IH1 in E as (rest & c' & H1 & H).
      exists rest, c'. split; [now apply M_Alt_left | assumption].
    + intros H. apply IH2 in H as (rest & c' & H2 & H).
      exists rest, c'. split; [now apply M_Alt_right | assumption].
  - intros H. apply IH in H as (rest & c' & Hm & H).
    exists rest, ((i, consumed s rest) :: c').
    split; [now constructor | assumption].
  - destruct (exec fl r s c (fun _ c' => Some c')) as [c'|] eqn:E;
      [|discriminate].
    intros H. apply IH in E as (rest & c'' & Hm & E). injection E as ->.
    exists s, c'. split; [econstructor; eassumption | assumption].
Qed.

Lemma match_here_sound fl r (s rest : str) c :
  match_here fl r s = Some (rest, c) -> matches fl r s [] rest c.
Proof.
  unfold match_here. intros H.
  apply exec_sound in H as (rest' & c' & Hm & H). now injection H as -> ->.
Qed.

End ReSound.

Module Patterns.
Import Re ReFacts ReSound.

Section Inversion.
Variable fl : flags.

Lemma matches_Lit_inv p (s rest : str) c c' :
  matches fl (Lit p) s c rest c' ->
  c' = c /\ strip_prefix (chr_eq fl) p s = Some rest.
Proof. inversion 1; subst; auto. Qed.

Lemma matches_Star_inv a g (s rest : str) c c' :
  matches fl (Star a g) s c rest c' ->
  exists run, s = run ++ rest /\ c' = c /\ forallb (atom_ok fl a) run = true.
Proof. inversion 1; subst; eauto. Qed.

Lemma matches_Plus_inv a g (s rest : str) c c' :
  matches fl (Plus a g) s c rest c' ->
  exists x run,
    s = (x :: run) ++ rest /\ c' = c /\
    forallb (atom_ok fl a) (x :: run) = true.
Proof.
  inversion 1; subst. exists x, run. simpl.
  repeat split; auto. now apply andb_true_iff.
Qed.

Lemma matches_Cat_inv r1 r2 (s rest : str) c c' :
  matches fl (Cat r1 r2) s c rest c' ->
  exists s1 c1, matches fl r1 s c s1 c1 /\ matches fl r2 s1 c1 rest c'.
Proof. inversion 1; subst; eauto. Qed.

Lemma matches_Alt_inv r1 r2 (s rest : str) c c' :
  matches fl (Alt r1 r2) s c rest c' ->
  matches fl r1 s c rest c' \/ matches fl r2 s c rest c'.
Proof. inversion 1; subst; auto. Qed.

Lemma matches_Group_inv i r (s rest : str) c c' :
  matches fl (Group i r) s c rest c' ->
  exists c0, c' = (i, consumed s rest) :: c0 /\ matches fl r s c rest c0.
Proof. inversion 1; subst; eauto. Qed.

Lemma matches_Ahead_inv r (s rest : str) c c' :
  matches fl (Ahead r) s c rest c' ->
  rest = s /\ exists rest0, matches fl r s c rest0 c'.
Proof. inversion 1; subst; eauto. Qed.

(** A literal matched without IGNORECASE is the literal itself. *)
Lemma matches_Lit_exact p (s rest : str) c c' :
  ignorecase fl = false ->
  matches fl (Lit p) s c rest c' -> c' = c /\ s = p ++ rest.
Proof.
  intros Hfl H. apply matches_Lit_inv in H as [-> H]. split; [reflexivity|].
  eapply strip_prefix_exact; [|eassumption].
  intros a b. now apply chr_eq_exact.
Qed.

End Inversion.

(** The shape of a match of the sign-name pattern. *)
Lemma sign_name_shape (here rest : str) c :
  match_here no_flags SIGN_NAME_RE here = Some (rest, c) ->
  exists name,
    c = [(1, name)] /\
    here = (lit "<traffic_sign name=" ++ [dquote]) ++ name ++ (dquote :: lit ">") ++ rest /\
    name <> [] /\
    forallb (atom_ok no_flags Dot) name = true.
Proof.
  intros H. apply match_here_sound in H. unfold SIGN_NAME_RE in H.
  apply matches_Cat_inv in H as (s1 & c1 & Hopen & H).
  apply matches_Lit_exact in Hopen as [-> ->]; [|reflexivity].
  apply matches_Cat_inv in H as (s2 & c2 & Hname & Hclose).
  apply matches_Lit_exact in Hclose as [-> ->]; [|reflexivity].
  apply matches_Group_inv in Hname as (c0 & -> & Hname).
  apply matches_Plus_inv in Hname as (x & run & E & -> & Hrun).
  rewrite E, consumed_app. exists (x :: run).
  repeat split; [discriminate | assumption].
Qed.

(** The shape of a match of the section pattern. *)
Lemma section_shape (here rest : str) c :
  match_here DOTALL SECTION_RE here = Some (rest, c) ->
  exists title body,
    c = [(2, body); (1, title)] /\
    here = (lit "<section title=" ++ [dquote]) ++ title ++ (dquote :: lit ">") ++ body ++ rest /\
    title <> [] /\
    section_end rest.
Proof.
  intros H. apply match_here_sound in H. unfold SECTION_RE in H.
  apply matches_Cat_inv in H as (s1 & c1 & Hopen & H).
  apply matches_Lit_exact in Hopen as [-> ->]; [|reflexivity].
  apply matches_Cat_inv in H as (s2 & c2 & Htitle & H).
  apply matches_Group_inv in Htitle as (c0 & -> & Htitle).
  apply matches_Plus_inv in Htitle as (x & run & E & -> & Hrun).
  apply matches_Cat_inv in H as (s3 & c3 & Hclose & H).
  apply matches_Lit_exact in Hclose as [-> ->]; [|reflexivity].
  apply matches_Cat_inv in H as (s4 & c4 & Hbody & H).
  apply matches_Group_inv in Hbody as (c5 & -> & Hbody).
  apply matches_Star_inv in Hbody as (body & E' & -> & Hbody).
  apply matches_Ahead_inv in H as (-> & rest0 & H).
  assert (Hc : c = [(2, consumed s3 s4);
                    (1, consumed s1 ((dquote :: lit ">") ++ s3))]
               /\ section_end s4).
  { unfold section_end.
    apply matches_Alt_inv in H as [H|H];
      [|apply matches_Alt_inv in H as [H|H]];
      apply matches_Lit_exact in H as [-> ->]; try reflexivity;
      (split; [reflexivity|]); eauto. }
  destruct Hc as [-> Hend]. subst s3 s1. rewrite !consumed_app.
  exists (x :: run), body.
  repeat split; [discriminate | assumption].
Qed.

End Patterns.

(* ===================================================================== *)
(** ** The extractor on a text *)
(* ===================================================================== *)

Section ExtractorFacts.
Import Re ReFacts ReSound Patterns.

(** Both groups of a section match took part in it. *)
Lemma block_of_match (s : str) :
  Forall (fun m => exists title body, block_of m = Ok (title, body))
         (finditer DOTALL SECTION_RE s).
Proof.
  eapply Forall_impl; [|apply finditer_from_matches].
  intros m (before & here & rest & _ & Hm).
  apply section_shape in Hm as (title & body & -> & _).
  unfold block_of, group_strip. simpl. eauto.
Qed.

Lemma collect_sections_fold (ms : list caps) :
  Forall (fun m => exists title body, block_of m = Ok (title, body)) ms ->
  forall d,
    collect_sections ms d =
    Ok (fold_left (fun d b => dict_set d (fst b) (snd b))
                  (flat_map (fun m => match block_of m with
                                      | Ok block => [block]
                                      | Raise _ => []
                                      end) ms) d).
Proof.
  induction 1 as [|m ms (title & body & Hm) _ IH]; intros d; simpl.
  - reflexivity.
  - rewrite Hm. simpl. apply IH.
Qed.

(** On a text, [extract_flowchart_sections] returns, and what it returns. *)
Lemma extract_flowchart_sections_str (s : str) :
  extract_flowchart_sections (JStr s) = Ok (sign_name_of s, sections_of s).
Proof.
  unfold extract_flowchart_sections, sign_name_of, sections_of, store_blocks,
  section_blocks.
  cbn [as_str rbind].
  rewrite (collect_sections_fold (block_of_match s)). cbn [rbind].
  destruct (search no_flags SIGN_NAME_RE s) as [m|] eqn:E; [|reflexivity].
  apply search_some in E as (before & here & rest & _ & Hm).
  apply sign_name_shape in Hm as (name & -> & _).
  reflexivity.
Qed.

Lemma extract_flowchart_sections_not_str (gt : json) :
  (forall s, gt <> JStr s) ->
  extract_flowchart_sections gt = Raise TypeError.
Proof.
  intros H. destruct gt; try reflexivity. now destruct (H s).
Qed.

End ExtractorFacts.

(* ===================================================================== *)
(** ** The templates format *)
(* ===================================================================== *)

Lemma keys_SECTION_QUESTIONS :
  keys SECTION_QUESTIONS = [lit "1"; lit "2"; lit "3"; lit "4"].
Proof. reflexivity. Qed.

(** [dict_get] finds a key exactly when it is among the keys. *)
Lemma dict_get_None V (d : dict V) k :
  dict_get d k = None <-> ~ In k (keys d).
Proof.
  induction d as [|[k' v] d IH]; simpl.
  - tauto.
  - destruct (str_eqb k' k) eqn:E.
    + apply str_eqb_eq in E. split; [discriminate | intros H; destruct H; auto].
    + apply str_eqb_neq in E. rewrite IH. tauto.
Qed.

(** The template set of a section number: its own when the number is a key
    of [SECTION_QUESTIONS], the generic one otherwise. *)
Lemma section_templates_cases (no : str) :
  (In no (keys SECTION_QUESTIONS) /\
   dict_get SECTION_QUESTIONS no = Some (section_templates no)) \/
  (~ In no (keys SECTION_QUESTIONS) /\
   section_templates no = GENERIC_SECTION_TEMPLATES).
Proof.
  unfold section_templates, dict_get_default.
  destruct (dict_get SECTION_QUESTIONS no) as [ts|] eqn:E.
  - left. split; [|reflexivity].
    destruct (in_dec (list_eq_dec ascii_dec) no (keys SECTION_QUESTIONS)) as [H|H];
      [assumption|]. apply dict_get_None in H. congruence.
  - right. split; [|reflexivity]. now apply dict_get_None.
Qed.

Lemma section_templates_key (no : str) :
  In no (keys SECTION_QUESTIONS) ->
  no = lit "1" \/ no = lit "2" \/ no = lit "3" \/ no = lit "4".
Proof. rewrite keys_SECTION_QUESTIONS. simpl. intuition auto. Qed.

Ltac format_computes :=
  match goal with
  | |- format ?t ?k = Ok (rendered ?t ?k) =>
      unfold rendered;
      let E := fresh "E" in
      destruct (format t k) eqn:E;
      [reflexivity | exfalso; vm_compute in E; discriminate E]
  end.

(** Every section template formats, whatever the sign name and the
    section number. *)
Lemma section_templates_format (sign_name no : str) :
  Forall (fun t => format t (section_kwargs sign_name no)
                   = Ok (rendered t (section_kwargs sign_name no)))
         (section_templates no).
Proof.
  destruct (section_templates_cases no) as [ [Hin E] | [Hnot Hgen] ]; [|rewrite Hgen].
  - apply section_templates_key in Hin.
    destruct Hin as [H|[H|[H|H]]]; subst no;
      repeat (constructor; [format_computes|]); constructor.
  - repeat (constructor; [format_computes|]); constructor.
Qed.

Lemma section_templates_length (no : str) : length (section_templates no) = 3.
Proof.
  destruct (section_templates_cases no) as [ [Hin E] | [Hnot Hgen] ];
    [|now rewrite Hgen].
  apply section_templates_key in Hin.
  destruct Hin as [H|[H|[H|H]]]; subst no; reflexivity.
Qed.

(** Every keyword and scenario template formats, whatever the keyword and
    the sign name. *)
Lemma keyword_templates_format (kw sign_name : str) :
  Forall (fun t => format t (keyword_kwargs kw sign_name)
                   = Ok (rendered t (keyword_kwargs kw sign_name)))
         (KEYWORD_TEMPLATES ++ SCENARIO_TEMPLATES).
Proof.
  repeat (constructor; [format_computes|]); constructor.
Qed.

(* ===================================================================== *)
(** ** What the expander appends *)
(* ===================================================================== *)

Section ExpanderFacts.

Context {R : Random}.

Lemma add_pairs_nil st : add_pairs st [] = st.
Proof. destruct st. unfold add_pairs. simpl. now rewrite app_nil_r. Qed.

Lemma add_pairs_app st l1 l2 :
  add_pairs (add_pairs st l1) l2 = add_pairs st (l1 ++ l2).
Proof. unfold add_pairs. simpl. now rewrite app_assoc. Qed.

Lemma with_generator_add_pairs st g l :
  add_pairs (with_generator st g) l = with_generator (add_pairs st l) g.
Proof. reflexivity. Qed.

Lemma for_each_nil A (body : A -> M unit) st :
  for_each [] body st = (Ok tt, st).
Proof. reflexivity. Qed.

Lemma for_each_cons A (x : A) (l : list A) (body : A -> M unit) :
  for_each (x :: l) body = bind (body x) (fun _ => for_each l body).
Proof. reflexivity. Qed.

Lemma bind_ok A B (m : M A) (f : A -> M B) st a st' :
  m st = (Ok a, st') -> bind m f st = f a st'.
Proof. unfold bind. now intros ->. Qed.

Lemma bind_raise A B (m : M A) (f : A -> M B) st e st' :
  m st = (Raise e, st') -> bind m f st = (Raise e, st').
Proof. unfold bind. now intros ->. Qed.

(** A loop that formats a question per template and appends a record. *)
Lemma for_each_format (templates : list str) (kwargs : dict str)
      (mk : str -> qa_pair) st :
  Forall (fun t => format t kwargs = Ok (rendered t kwargs)) templates ->
  for_each templates
           (fun t => bind (lift (format t kwargs)) (fun q => append (mk q))) st
  = (Ok tt, add_pairs st (map (fun t => mk (rendered t kwargs)) templates)).
Proof.
  intros H. revert st. induction H as [|t ts Ht _ IH]; intros st.
  - rewrite for_each_nil. cbn [map]. now rewrite add_pairs_nil.
  - rewrite for_each_cons.
    erewrite bind_ok;
      [|erewrite bind_ok; [reflexivity | unfold lift; now rewrite Ht]].
    rewrite IH. unfold add_pairs. cbn [generator qa_pairs printed map].
    now rewrite <- app_assoc.
Qed.

(** The loop over the sections appends [section_pairs] of each. *)
Lemma section_loop img sign_name (sections : dict str) st :
  for_each sections
    (fun item =>
       for_each (section_templates (fst item))
         (fun q_template =>
            bind (lift (format q_template (section_kwargs sign_name (fst item))))
                 (fun question =>
                    append {| image := img; question := question;
                              answer := snd item |})))
    st
  = (Ok tt, add_pairs st (flat_map (section_pairs img sign_name) sections)).
Proof.
  revert st. induction sections as [|item rest IH]; intros st.
  - rewrite for_each_nil. cbn [flat_map]. now rewrite add_pairs_nil.
  - rewrite for_each_cons.
    erewrite bind_ok;
      [|apply (for_each_format _
                 (fun q => {| image := img; question := q; answer := snd item |})
                 st (section_templates_format sign_name (fst item)))].
    rewrite IH. cbn [flat_map]. now rewrite add_pairs_app.
Qed.

Lemma random_choice_run sections st :
  truthy sections = true ->
  random_choice (values sections) st
  = (Ok (fst (choose_section sections (generator st))),
     with_generator st (snd (choose_section sections (generator st)))).
Proof.
  unfold random_choice, choose_section.
  destruct sections as [|[k v] rest]; [discriminate|]. intros _. simpl.
  now destruct (choice (generator st) (v :: values rest)).
Qed.

Lemma choose_section_empty (sections : dict str) g :
  truthy sections = false ->
  choose_section sections g = (lit "Refer to sign rules.", g).
Proof. destruct sections; [reflexivity | discriminate]. Qed.

Lemma with_generator_same st : with_generator st (generator st) = st.
Proof. now destruct st. Qed.

Lemma choose_run (sections : dict str) st :
  (if truthy sections
   then random_choice (values sections)
   else ret (lit "Refer to sign rules.")) st
  = (Ok (fst (choose_section sections (generator st))),
     with_generator st (snd (choose_section sections (generator st)))).
Proof.
  destruct (truthy sections) eqn:E.
  - now apply random_choice_run.
  - rewrite choose_section_empty by assumption. unfold ret. cbn [fst snd].
    now rewrite with_generator_same.
Qed.

(** The loop over the sampled keywords: one draw per keyword, then one
    record per keyword and scenario template. *)
Lemma keyword_loop img sign_name (sections : dict str) (kws : list str) st :
  for_each kws
    (fun kw =>
       bind (if truthy sections
             then random_choice (values sections)
             else ret (lit "Refer to sign rules."))
            (fun chosen_section =>
               for_each (KEYWORD_TEMPLATES ++ SCENARIO_TEMPLATES)
                 (fun kw_q_template =>
                    bind (lift (format kw_q_template (keyword_kwargs kw sign_name)))
                         (fun question =>
                            append {| image := img; question := question;
                                      answer := keyword_answer sign_name kw chosen_section |}))))
    st
  = (Ok tt,
     with_generator
       (add_pairs st (flat_map (keyword_pairs img sign_name)
                               (fst (choose_sections sections kws (generator st)))))
       (snd (choose_sections sections kws (generator st)))).
Proof.
  revert st. induction kws as [|kw rest IH]; intros st.
  - rewrite for_each_nil. cbn [choose_sections fst snd flat_map].
    now rewrite add_pairs_nil, with_generator_same.
  - rewrite for_each_cons.
    erewrite bind_ok;
      [|erewrite bind_ok;
        [apply (for_each_format _
                  (fun q => {| image := img; question := q;
                               answer := keyword_answer sign_name kw
                                           (fst (choose_section sections (generator st))) |})
                  _ (keyword_templates_format kw sign_name))
        |apply choose_run]].
    rewrite IH. cbn [choose_sections].
    destruct (choose_section sections (generator st)) as [chosen g1].
    cbn [fst snd generator with_generator add_pairs].
    destruct (choose_sections sections rest g1) as [draws g2].
    cbn [fst snd flat_map]. unfold with_generator, add_pairs, keyword_pairs.
    cbn [fst snd generator qa_pairs printed]. now rewrite <- !app_assoc.
Qed.

Lemma random_sample_run (keywords : list str) st :
  random_sample keywords (Nat.min (length keywords) 5) st
  = (Ok (fst (sampled_keywords keywords (generator st))),
     with_generator st (snd (sampled_keywords keywords (generator st)))).
Proof.
  unfold random_sample, sampled_keywords.
  destruct (Nat.leb_spec (Nat.min (length keywords) 5) (length keywords)) as [_|H];
    [|lia].
  now destruct (sample (generator st) keywords (Nat.min (length keywords) 5)).
Qed.

(** A text entry never raises: it appends [entry_pairs]. *)
Lemma expand_entry_str img (s : str) st :
  expand_entry img (JStr s) st
  = (Ok tt,
     with_generator (add_pairs st (entry_pairs img s (generator st)))
                    (snd (entry_draws s (generator st)))).
Proof.
  unfold expand_entry.
  erewrite bind_ok; [|unfold lift; now rewrite extract_flowchart_sections_str].
  cbn [fst snd].
  erewrite bind_ok; [|apply section_loop].
  erewrite bind_ok; [|apply random_sample_run].
  rewrite keyword_loop. unfold entry_pairs, entry_draws.
  cbn [generator with_generator add_pairs].
  destruct (sampled_keywords (extract_keywords (JStr s)) (generator st))
    as [kws g1].
  cbn [fst snd].
  destruct (choose_sections (sections_of s) kws g1) as [draws g2].
  cbn [fst snd]. unfold with_generator, add_pairs.
  cbn [generator qa_pairs printed]. now rewrite <- app_assoc.
Qed.

(** An entry whose ground truth is not a text raises before anything is
    appended or drawn. *)
Lemma expand_entry_not_str img (gt : json) st :
  (forall s, gt <> JStr s) ->
  expand_entry img gt st = (Raise TypeError, st).
Proof.
  intros H. unfold expand_entry.
  erewrite bind_raise; [reflexivity|].
  unfold lift. now rewrite extract_flowchart_sections_not_str.
Qed.

Lemma json_str_or_not (gt : json) :
  (exists s, gt = JStr s) \/ (forall s, gt <> JStr s).
Proof. destruct gt; eauto; right; discriminate. Qed.

(** The only way [expand_entry] raises. *)
Lemma expand_entry_raise img (gt : json) st e st1 :
  expand_entry img gt st = (Raise e, st1) ->
  (forall s, gt <> JStr s) /\ e = TypeError /\ st1 = st.
Proof.
  destruct (json_str_or_not gt) as [[s ->]|H].
  - rewrite expand_entry_str. discriminate.
  - rewrite expand_entry_not_str by assumption.
    intros E. injection E as <- <-. auto.
Qed.

End ExpanderFacts.

(* ===================================================================== *)
(** ** The records of a text entry, chunk by chunk *)
(* ===================================================================== *)

Lemma instantiates_map (templates : list str) (kwargs : dict str) img ans :
  Forall (fun t => format t kwargs = Ok (rendered t kwargs)) templates ->
  instantiates templates kwargs img ans
    (map (fun t => {| image := img; question := rendered t kwargs; answer := ans |})
         templates).
Proof.
  unfold instantiates. induction 1 as [|t ts Ht _ IH]; simpl; constructor; auto.
Qed.

Lemma instantiates_length templates kwargs img ans chunk :
  instantiates templates kwargs img ans chunk ->
  length chunk = length templates.
Proof. intros H. symmetry. eapply Forall2_length. eassumption. Qed.

Lemma Forall2_map_right A B (P : A -> B -> Prop) (f : A -> B) (l : list A) :
  (forall x, In x l -> P x (f x)) -> Forall2 P l (map f l).
Proof.
  induction l as [|x l IH]; simpl; intros H; constructor; auto.
Qed.

Section EntryOutcome.

Context {R : Random}.

Lemma choose_sections_keywords (sections : dict str) (kws : list str) g :
  map fst (fst (choose_sections sections kws g)) = kws.
Proof.
  revert g. induction kws as [|kw rest IH]; intros g; simpl; [reflexivity|].
  destruct (choose_section sections g) as [chosen g1].
  specialize (IH g1). destruct (choose_sections sections rest g1) as [draws g2].
  simpl in *. now rewrite IH.
Qed.

(** A text entry is expanded without an exception. It appends one chunk per
    section, that instantiates the section's templates with the section
    body as answer, then one chunk per sampled keyword, that instantiates
    the keyword and scenario templates with the answer built from the one
    body drawn for that keyword. *)
Lemma expand_entry_outcome img (s : str) st :
  exists name sections sampled g1 draws g2 sec_chunks kw_chunks,
    extract_flowchart_sections (JStr s) = Ok (name, sections) /\
    sampled_keywords (extract_keywords (JStr s)) (generator st) = (sampled, g1) /\
    choose_sections sections sampled g1 = (draws, g2) /\
    map fst draws = sampled /\
    expand_entry img (JStr s) st
    = (Ok tt, {| generator := g2;
                 qa_pairs := qa_pairs st ++ concat sec_chunks ++ concat kw_chunks;
                 printed := printed st |}) /\
    Forall2 (fun item chunk =>
               instantiates (section_templates (fst item))
                            (section_kwargs name (fst item))
                            img (snd item) chunk)
            sections sec_chunks /\
    Forall2 (fun draw chunk =>
               instantiates (KEYWORD_TEMPLATES ++ SCENARIO_TEMPLATES)
                            (keyword_kwargs (fst draw) name)
                            img (keyword_answer name (fst draw) (snd draw)) chunk)
            draws kw_chunks.
Proof.
  destruct (sampled_keywords (extract_keywords (JStr s)) (generator st))
    as [sampled g1] eqn:Es.
  destruct (choose_sections (sections_of s) sampled g1) as [draws g2] eqn:Ed.
  exists (sign_name_of s), (sections_of s), sampled, g1, draws, g2,
    (map (section_pairs img (sign_name_of s)) (sections_of s)),
    (map (keyword_pairs img (sign_name_of s)) draws).
  split; [apply extract_flowchart_sections_str|].
  split; [reflexivity|]. split; [assumption|].
  split; [now rewrite <- (choose_sections_keywords (sections_of s) sampled g1), Ed|].
  split.
  - rewrite expand_entry_str. unfold entry_pairs, entry_draws.
    rewrite Es, Ed. cbn [fst snd]. now rewrite !flat_map_concat_map.
  - split; apply Forall2_map_right; intros x _.
    + apply instantiates_map, section_templates_format.
    + apply instantiates_map, keyword_templates_format.
Qed.

End EntryOutcome.

(* ===================================================================== *)
(** ** The loop over the entries *)
(* ===================================================================== *)

Section LoopFacts.

Context {R : Random}.

Lemma for_each_app A (l1 l2 : list A) (body : A -> M unit) st :
  for_each (l1 ++ l2) body st
  = bind (for_each l1 body) (fun _ => for_each l2 body) st.
Proof.
  revert st. induction l1 as [|x l1 IH]; intros st.
  - reflexivity.
  - cbn [app]. rewrite !for_each_cons. unfold bind.
    destruct (body x st) as [[[]|e] st1]; [|reflexivity].
    rewrite IH. reflexivity.
Qed.

Lemma same_run_refl st : same_run st st.
Proof. now split. Qed.

Lemma same_run_add_printed st e : same_run (add_printed st e) st.
Proof. now split. Qed.

Lemma same_run_trans st1 st2 st3 :
  same_run st1 st2 -> same_run st2 st3 -> same_run st1 st3.
Proof. intros [? ?] [? ?]. split; congruence. Qed.

(** One turn of the loop, case by case. *)
Lemma process_entry_cases (entry : json) st :
  (exists e, process_entry entry st = (Raise e, st) /\
             (getitem entry (lit "image") = Raise e \/
              (exists img, getitem entry (lit "image") = Ok img) /\
              getitem entry (lit "ground_truth") = Raise e)) \/
  (exists img gt,
      getitem entry (lit "image") = Ok img /\
      getitem entry (lit "ground_truth") = Ok gt /\
      ((exists s, gt = JStr s /\
                  process_entry entry st
                  = (Ok tt,
                     with_generator (add_pairs st (entry_pairs img s (generator st)))
                                    (snd (entry_draws s (generator st))))) \/
       ((forall s, gt <> JStr s) /\
        process_entry entry st = (Ok tt, add_printed st TypeError)))).
Proof.
  unfold process_entry.
  destruct (getitem entry (lit "image")) as [img|e] eqn:Ei.
  - destruct (getitem entry (lit "ground_truth")) as [gt|e] eqn:Eg.
    + right. exists img, gt. split; [reflexivity|]. split; [reflexivity|].
      erewrite bind_ok; [|reflexivity]. erewrite bind_ok; [|reflexivity].
      unfold try_except.
      destruct (json_str_or_not gt) as [[s ->]|H].
      * left. exists s. split; [reflexivity|]. now rewrite expand_entry_str.
      * right. split; [assumption|]. now rewrite expand_entry_not_str.
    + left. exists e. split; [|right; eauto].
      erewrite bind_ok; [|reflexivity]. now erewrite bind_raise.
  - left. exists e. split; [|now left]. now erewrite bind_raise.
Qed.

(** A turn of the loop does not look at what was printed. *)
Lemma process_entry_same_run (entry : json) st1 st2 :
  same_run st1 st2 ->
  same_outcome (process_entry entry st1) (process_entry entry st2).
Proof.
  intros [Hg Hq].
  destruct (process_entry_cases entry st1) as [(e & E1 & He)|(img & gt & Hi & Hgt & Hc)];
    destruct (process_entry_cases entry st2) as [(e' & E2 & He')|(img' & gt' & Hi' & Hgt' & Hc')].
  - rewrite E1, E2. split; [|now split]. simpl.
    destruct He as [He|[[img Hi] He]], He' as [He'|[[img' Hi'] He']]; congruence.
  - exfalso. destruct He as [He|[_ He]]; congruence.
  - exfalso. destruct He' as [He'|[_ He']]; congruence.
  - assert (img' = img) by congruence. assert (gt' = gt) by congruence. subst.
    destruct Hc as [(s & -> & E1)|[Hn E1]], Hc' as [(s' & Es & E2)|[Hn' E2]].
    + injection Es as <-. rewrite E1, E2, Hg. split; [reflexivity|].
      split; simpl; [reflexivity | now rewrite Hq].
    + now destruct (Hn' s).
    + now destruct (Hn s').
    + rewrite E1, E2. split; [reflexivity | now split].
Qed.

Lemma entries_loop_same_run (data : list json) st1 st2 :
  same_run st1 st2 ->
  same_outcome (entries_loop data st1) (entries_loop data st2).
Proof.
  unfold entries_loop. revert st1 st2.
  induction data as [|entry rest IH]; intros st1 st2 H.
  - rewrite !for_each_nil. now split.
  - rewrite !for_each_cons. unfold bind.
    destruct (process_entry_same_run entry H) as [Hv Hs].
    destruct (process_entry entry st1) as [[[]|e1] st1'],
             (process_entry entry st2) as [[[]|e2] st2']; simpl in Hv, Hs;
      try discriminate.
    + now apply IH.
    + injection Hv as ->. now split.
Qed.


Lemma generate_qa_pairs_unfold (data : list json) st :
  generate_qa_pairs data st
  = match entries_loop data {| generator := generator st; qa_pairs := [];
                               printed := printed st |} with
    | (Ok _, st') => (Ok (qa_pairs st'), st')
    | (Raise e, st') => (Raise e, st')
    end.
Proof. reflexivity. Qed.

End LoopFacts.

(* ===================================================================== *)
(** ** The sign name of a text without a sign tag *)
(* ===================================================================== *)

Section SignTag.
Import Re ReFacts ReSound Patterns.

Lemma dot_no_flags (name : str) :
  forallb (atom_ok no_flags Dot) name = true <-> ~ In newline name.
Proof.
  induction name as [|c name IH]; simpl.
  - tauto.
  - rewrite andb_true_iff, IH, negb_true_iff. split.
    + intros [Hc Hn] [E|Hin]; [|now apply Hn].
      subst c. now rewrite Ascii.eqb_refl in Hc.
    + intros H. split; [|tauto].
      destruct (Ascii.eqb c newline) eqn:E; [|reflexivity].
      apply Ascii.eqb_eq in E. subst c. tauto.
Qed.

(** A sign name was found: the text carries a sign tag. *)
Lemma search_sign_name_tag (s : str) c :
  search no_flags SIGN_NAME_RE s = Some c -> has_sign_tag s.
Proof.
  intros H. apply search_some in H as (before & here & rest & -> & Hm).
  apply sign_name_shape in Hm as (name & _ & -> & Hne & Hdot).
  exists before, name, rest. repeat split; [assumption | now apply dot_no_flags].
Qed.

Lemma sign_name_of_untagged (s : str) :
  ~ has_sign_tag s -> sign_name_of s = lit "Unknown".
Proof.
  intros H. unfold sign_name_of.
  destruct (search no_flags SIGN_NAME_RE s) as [c|] eqn:E; [|reflexivity].
  destruct H. eapply search_sign_name_tag. eassumption.
Qed.

Lemma strip_prefix_app cmp (p rest : str) :
  (forall a, cmp a a = true) -> strip_prefix cmp p (p ++ rest) = Some rest.
Proof.
  intros Hcmp. induction p as [|x p IH]; simpl; [reflexivity|].
  now rewrite Hcmp.
Qed.

Lemma chr_eq_refl fl a : chr_eq fl a a = true.
Proof. unfold chr_eq. destruct (ignorecase fl); apply Ascii.eqb_refl. Qed.

Lemma lazy_star_unfold fl A a (s : str) (k : str -> option A) :
  lazy_star fl a s k
  = match k s with
    | Some x => Some x
    | None => match s with
              | c :: s' => if atom_ok fl a c then lazy_star fl a s' k else None
              | [] => None
              end
    end.
Proof. destruct s; reflexivity. Qed.

(** [a*?] succeeds when some run of [a] leads to a rest the continuation
    accepts. *)
Lemma lazy_star_complete fl A a (run rest : str) (k : str -> option A) :
  forallb (atom_ok fl a) run = true -> k rest <> None ->
  exists y, lazy_star fl a (run ++ rest) k = Some y.
Proof.
  intros Hrun Hk. induction run as [|c run IH]; rewrite lazy_star_unfold.
  - simpl. destruct (k rest); [eauto | congruence].
  - simpl in Hrun. apply andb_true_iff in Hrun as [Hc Hrun].
    destruct (k ((c :: run) ++ rest)); [eauto|].
    simpl. rewrite Hc. auto.
Qed.

Lemma search_complete fl r (before here : str) m :
  match_here fl r here = Some m ->
  exists c, search fl r (before ++ here) = Some c.
Proof.
  intros Hm. induction before as [|x before IH]; simpl.
  - destruct here; simpl; rewrite Hm; destruct m; eauto.
  - destruct (match_here fl r (x :: before ++ here)) as [[rest c]|]; eauto.
Qed.

(** The text carries a sign tag: a sign name is found. *)
Lemma tag_search_sign_name (s : str) :
  has_sign_tag s -> exists c, search no_flags SIGN_NAME_RE s = Some c.
Proof.
  intros (before & name & after & -> & Hne & Hnl).
  destruct name as [|x run]; [congruence|].
  apply dot_no_flags in Hnl. cbn [forallb] in Hnl.
  apply andb_true_iff in Hnl as [Hx Hrun].
  assert (Hm : exists m, match_here no_flags SIGN_NAME_RE
                  ((lit "<traffic_sign name=" ++ [dquote]) ++ (x :: run)
                     ++ (dquote :: lit ">") ++ after) = Some m).
  { unfold match_here, SIGN_NAME_RE. cbn [exec].
    rewrite strip_prefix_app by apply chr_eq_refl.
    cbn [app]. rewrite Hx. unfold star.
    match goal with
    | |- context [lazy_star _ _ _ ?k] =>
        destruct (@lazy_star_complete no_flags _ Dot run
                    (dquote :: lit ">" ++ after) k Hrun) as [y Hy]
    end.
    - change (dquote :: lit ">" ++ after) with ((dquote :: lit ">") ++ after).
      rewrite strip_prefix_app by apply chr_eq_refl. discriminate.
    - rewrite Hy. eauto. }
  destruct Hm as [m Hm]. eapply search_complete. eassumption.
Qed.

(** Whether a text carries a sign tag can be computed. *)
Lemma search_None_untagged (s : str) :
  search no_flags SIGN_NAME_RE s = None -> ~ has_sign_tag s.
Proof.
  intros E H. apply tag_search_sign_name in H as [c H]. congruence.
Qed.

End SignTag.

(* ===================================================================== *)
(** ** The expander on one entry *)
(* ===================================================================== *)

Lemma Forall2_map_fst A B C (P : A -> C -> Prop) (l : list (A * B)) (l' : list C) :
  Forall2 (fun x c => P (fst x) c) l l' -> Forall2 P (map fst l) l'.
Proof. induction 1; simpl; constructor; auto. Qed.

Lemma keyword_templates_length :
  length (KEYWORD_TEMPLATES ++ SCENARIO_TEMPLATES) = 8.
Proof. reflexivity. Qed.

(** The answers [random.choice] can give, for the example generator. *)
Lemma counter_choice_in (g : nat) (seq : list str) :
  seq <> [] -> In (fst (@choice counter_random g seq)) seq.
Proof.
  intros H. simpl. apply nth_In. apply Nat.mod_upper_bound.
  destruct seq; [congruence | discriminate].
Qed.

(** Every record of a chunk that instantiates templates has the answer
    given. *)
Lemma instantiates_answer templates kwargs img ans chunk :
  instantiates templates kwargs img ans chunk ->
  forall r, In r chunk -> answer r = ans.
Proof.
  unfold instantiates. intros H r Hr.
  induction H as [|t r' ts rs Hh _ IH]; [destruct Hr|].
  destruct Hr as [->|Hr]; [apply Hh | now apply IH].
Qed.

(** Chunks of [n] records each, one per element. *)
Lemma chunks_length A B (P : A -> list B -> Prop) (n : nat)
      (l : list A) (chunks : list (list B)) :
  Forall2 P l chunks ->
  (forall a chunk, P a chunk -> length chunk = n) ->
  length (concat chunks) = n * length l.
Proof.
  intros H Hn. induction H as [|a chunk l chunks Ha _ IH]; simpl.
  - now rewrite Nat.mul_0_r.
  - rewrite length_app, IH, (Hn _ _ Ha). lia.
Qed.

Section EntryClaims.

Context {R : Random}.

(** C1, as the code has it. The keyword and scenario templates are 8 in
    all, not 9. For every text entry the records appended are, in this
    order and with nothing else: 3 records per extracted section, then for
    every sampled keyword exactly 8 records, one per template of
    [KEYWORD_TEMPLATES] followed by [SCENARIO_TEMPLATES], in that order,
    each with the template formatted with the keyword and the sign name as
    its question. *)
Theorem keyword_yields_eight_pairs img (s : str) st :
  length (KEYWORD_TEMPLATES ++ SCENARIO_TEMPLATES) = 8 /\
  exists name sections sampled g1 draws sec_chunks kw_chunks st',
    extract_flowchart_sections (JStr s) = Ok (name, sections) /\
    sample (generator st) (extract_keywords (JStr s))
           (Nat.min (length (extract_keywords (JStr s))) 5) = (sampled, g1) /\
    map fst draws = sampled /\
    expand_entry img (JStr s) st = (Ok tt, st') /\
    qa_pairs st' = qa_pairs st ++ concat sec_chunks ++ concat kw_chunks /\
    length (concat sec_chunks ++ concat kw_chunks)
    = 3 * length sections + 8 * length sampled /\
    Forall2 (fun item chunk =>
               length chunk = 3 /\
               instantiates (section_templates (fst item))
                            (section_kwargs name (fst item))
                            img (snd item) chunk)
            sections sec_chunks /\
    Forall2 (fun draw chunk =>
               length chunk = 8 /\
               instantiates (KEYWORD_TEMPLATES ++ SCENARIO_TEMPLATES)
                            [(lit "kw", fst draw); (lit "sign", name)]
                            img
                            (keyword_answer name (fst draw) (snd draw))
                            chunk)
            draws kw_chunks.
Proof.
  split; [reflexivity|].
  destruct (expand_entry_outcome img s st)
    as (name & sections & sampled & g1 & draws & g2 & sec_chunks & kw_chunks
        & He & Hs & Hd & Hk & Hrun & Hsec & Hkw).
  exists name, sections, sampled, g1, draws, sec_chunks, kw_chunks.
  eexists. split; [exact He|]. split; [exact Hs|]. split; [exact Hk|].
  split; [exact Hrun|]. split; [reflexivity|].
  assert (Hsec3 : Forall2 (fun item chunk =>
                             length chunk = 3 /\
                             instantiates (section_templates (fst item))
                                          (section_kwargs name (fst item))
                                          img (snd item) chunk)
                          sections sec_chunks).
  { eapply Forall2_impl; [|exact Hsec].
    intros item chunk H. split; [|exact H].
    now rewrite (instantiates_length H), section_templates_length. }
  assert (Hkw8 : Forall2 (fun draw chunk =>
                            length chunk = 8 /\
                            instantiates (KEYWORD_TEMPLATES ++ SCENARIO_TEMPLATES)
                                         [(lit "kw", fst draw); (lit "sign", name)]
                                         img
                                         (keyword_answer name (fst draw) (snd draw))
                                         chunk)
                         draws kw_chunks).
  { eapply Forall2_impl; [|exact Hkw].
    intros draw chunk H. split; [|exact H].
    now rewrite (instantiates_length H). }
  split; [|split; assumption].
  rewrite length_app, <- Hk, length_map.
  rewrite (chunks_length Hsec3 (fun _ _ H => proj1 H)).
  rewrite (chunks_length Hkw8 (fun _ _ H => proj1 H)).
  reflexivity.
Qed.

(** C5. For every text entry and every section the extractor returned, the
    expander appends exactly 3 records: they instantiate the template set
    stored under the section number when the number is one of the keys
    "1".."4" of [SECTION_QUESTIONS], the generic set otherwise, and each
    has the section body as its answer. The section records come first, in
    the order of the sections, and nothing follows them but the 8 records
    of each sampled keyword. *)
Theorem section_pairs_follow_template_map img (s : str) st :
  keys SECTION_QUESTIONS = [lit "1"; lit "2"; lit "3"; lit "4"] /\
  exists name sections sampled g1 draws sec_chunks kw_chunks st',
    extract_flowchart_sections (JStr s) = Ok (name, sections) /\
    sample (generator st) (extract_keywords (JStr s))
           (Nat.min (length (extract_keywords (JStr s))) 5) = (sampled, g1) /\
    map fst draws = sampled /\
    expand_entry img (JStr s) st = (Ok tt, st') /\
    qa_pairs st' = qa_pairs st ++ concat sec_chunks ++ concat kw_chunks /\
    length (concat sec_chunks) = 3 * length sections /\
    Forall2 (fun item chunk =>
               length chunk = 3 /\
               (forall r, In r chunk -> answer r = snd item) /\
               (In (fst item) (keys SECTION_QUESTIONS) ->
                exists own,
                  dict_get SECTION_QUESTIONS (fst item) = Some own /\
                  instantiates own [(lit "sign", name); (lit "section", fst item)]
                               img (snd item) chunk) /\
               (~ In (fst item) (keys SECTION_QUESTIONS) ->
                instantiates GENERIC_SECTION_TEMPLATES
                             [(lit "sign", name); (lit "section", fst item)]
                             img (snd item) chunk))
            sections sec_chunks /\
    Forall2 (fun draw chunk =>
               length chunk = 8 /\
               instantiates (KEYWORD_TEMPLATES ++ SCENARIO_TEMPLATES)
                            (keyword_kwargs (fst draw) name)
                            img
                            (keyword_answer name (fst draw) (snd draw))
                            chunk)
            draws kw_chunks.
Proof.
  split; [reflexivity|].
  destruct (expand_entry_outcome img s st)
    as (name & sections & sampled & g1 & draws & g2 & sec_chunks & kw_chunks
        & He & Hs & Hd & Hk & Hrun & Hsec & Hkw).
  exists name, sections, sampled, g1, draws, sec_chunks, kw_chunks.
  eexists. split; [exact He|]. split; [exact Hs|]. split; [exact Hk|].
  split; [exact Hrun|]. split; [reflexivity|].
  split; [|split].
  - apply (chunks_length Hsec). intros item chunk H.
    now rewrite (instantiates_length H), section_templates_length.
  - eapply Forall2_impl; [|exact Hsec].
    intros item chunk H. split; [|split; [|split]].
    + now rewrite (instantiates_length H), section_templates_length.
    + exact (instantiates_answer H).
    + intros Hin.
      destruct (section_templates_cases (fst item)) as [ [_ E] | [Hnot _] ];
        [eauto | contradiction].
    + intros Hnot.
      destruct (section_templates_cases (fst item)) as [ [Hin _] | [_ E] ];
        [contradiction | now rewrite <- E].
  - eapply Forall2_impl; [|exact Hkw].
    intros draw chunk H. split; [|exact H].
    now rewrite (instantiates_length H).
Qed.

Lemma choose_section_from (sections : dict str) g :
  (forall g seq, seq <> [] -> In (fst (choice g seq)) seq) ->
  (sections = [] -> fst (choose_section sections g) = lit "Refer to sign rules.") /\
  (sections <> [] -> In (fst (choose_section sections g)) (values sections)).
Proof.
  intros Hchoice. unfold choose_section.
  destruct sections as [|[k v] rest].
  - split; [reflexivity | congruence].
  - split; [discriminate|]. intros _.
    change (values ((k, v) :: rest)) with (v :: values rest).
    apply Hchoice. discriminate.
Qed.

Lemma choose_sections_from (sections : dict str) (kws : list str) g :
  (forall g seq, seq <> [] -> In (fst (choice g seq)) seq) ->
  Forall (fun draw =>
            (sections = [] -> snd draw = lit "Refer to sign rules.") /\
            (sections <> [] -> In (snd draw) (values sections)))
         (fst (choose_sections sections kws g)).
Proof.
  intros Hchoice. revert g. induction kws as [|kw rest IH]; intros g; simpl.
  - constructor.
  - pose proof (choose_section_from sections g Hchoice) as H.
    destruct (choose_section sections g) as [chosen g1].
    specialize (IH g1).
    destruct (choose_sections sections rest g1) as [draws g2].
    simpl in *. constructor; assumption.
Qed.

Lemma Forall2_Forall_left A B (P : A -> Prop) (Q : A -> B -> Prop)
      (l : list A) (l' : list B) :
  Forall P l -> Forall2 Q l l' -> Forall2 (fun a b => P a /\ Q a b) l l'.
Proof.
  intros HP HQ. induction HQ; constructor.
  - split; [now inversion HP | assumption].
  - apply IHHQ. now inversion HP.
Qed.

(** C6. When [random.choice] returns an element of its argument: for every
    text entry and every sampled keyword one body is drawn, from the bodies
    of the extracted sections, or it is "Refer to sign rules." when there is
    no section; the generator is advanced by one [choice] per keyword
    ([choose_sections]). The records appended are the 3 of each section and
    then, for each keyword, exactly the 8 that instantiate the keyword and
    scenario templates; every one of the 8 has the same answer, the
    sentence naming the sign and the keyword followed by that one body. *)
Theorem one_body_per_keyword
        (Hchoice : forall g seq, seq <> [] -> In (fst (choice g seq)) seq)
        img (s : str) st :
  exists name sections sampled g1 draws sec_chunks kw_chunks st',
    extract_flowchart_sections (JStr s) = Ok (name, sections) /\
    sample (generator st) (extract_keywords (JStr s))
           (Nat.min (length (extract_keywords (JStr s))) 5) = (sampled, g1) /\
    choose_sections sections sampled g1 = (draws, generator st') /\
    map fst draws = sampled /\
    expand_entry img (JStr s) st = (Ok tt, st') /\
    qa_pairs st' = qa_pairs st ++ concat sec_chunks ++ concat kw_chunks /\
    length (concat kw_chunks) = 8 * length sampled /\
    Forall2 (fun item chunk =>
               length chunk = 3 /\
               instantiates (section_templates (fst item))
                            (section_kwargs name (fst item))
                            img (snd item) chunk)
            sections sec_chunks /\
    Forall2 (fun draw chunk =>
               (sections = [] -> snd draw = lit "Refer to sign rules.") /\
               (sections <> [] -> In (snd draw) (values sections)) /\
               length chunk = 8 /\
               instantiates (KEYWORD_TEMPLATES ++ SCENARIO_TEMPLATES)
                            (keyword_kwargs (fst draw) name)
                            img
                            (lit "In the context of the '" ++ name
                               ++ lit "' sign, the keyword '" ++ fst draw
                               ++ lit "' relates to: " ++ snd draw)
                            chunk /\
               forall r, In r chunk ->
                         answer r = lit "In the context of the '" ++ name
                                      ++ lit "' sign, the keyword '" ++ fst draw
                                      ++ lit "' relates to: " ++ snd draw)
            draws kw_chunks.
Proof.
  destruct (expand_entry_outcome img s st)
    as (name & sections & sampled & g1 & draws & g2 & sec_chunks & kw_chunks
        & He & Hs & Hd & Hk & Hrun & Hsec & Hkw).
  exists name, sections, sampled, g1, draws, sec_chunks, kw_chunks.
  exists {| generator := g2;
            qa_pairs := qa_pairs st ++ concat sec_chunks ++ concat kw_chunks;
            printed := printed st |}.
  split; [exact He|]. split; [exact Hs|]. split; [exact Hd|].
  split; [exact Hk|]. split; [exact Hrun|]. split; [reflexivity|].
  split; [|split].
  - rewrite <- Hk, length_map. apply (chunks_length Hkw).
    intros draw chunk H. now rewrite (instantiates_length H).
  - eapply Forall2_impl; [|exact Hsec].
    intros item chunk H. split; [|exact H].
    now rewrite (instantiates_length H), section_templates_length.
  - pose proof (choose_sections_from sections sampled g1 Hchoice) as Hfrom.
    rewrite Hd in Hfrom. cbn [fst] in Hfrom.
    eapply Forall2_impl; [|apply (Forall2_Forall_left Hfrom Hkw)].
    intros draw chunk [[Hnone Hsome] H].
    split; [assumption|]. split; [assumption|]. split; [|split].
    + now rewrite (instantiates_length H).
    + exact H.
    + exact (instantiates_answer H).
Qed.

(** C8. For every text without a sign tag the extractor returns the name
    "Unknown" and the entry is expanded without an exception: the sign name
    formatted into every question and built into every keyword answer is
    "Unknown". *)
Theorem untagged_text_is_Unknown img (s : str) st :
  ~ has_sign_tag s ->
  exists sections sampled g1 draws sec_chunks kw_chunks st',
    extract_flowchart_sections (JStr s) = Ok (lit "Unknown", sections) /\
    sample (generator st) (extract_keywords (JStr s))
           (Nat.min (length (extract_keywords (JStr s))) 5) = (sampled, g1) /\
    map fst draws = sampled /\
    expand_entry img (JStr s) st = (Ok tt, st') /\
    qa_pairs st' = qa_pairs st ++ concat sec_chunks ++ concat kw_chunks /\
    Forall2 (fun item chunk =>
               instantiates (section_templates (fst item))
                            (section_kwargs (lit "Unknown") (fst item))
                            img (snd item) chunk)
            sections sec_chunks /\
    Forall2 (fun draw chunk =>
               instantiates (KEYWORD_TEMPLATES ++ SCENARIO_TEMPLATES)
                            (keyword_kwargs (fst draw) (lit "Unknown"))
                            img
                            (keyword_answer (lit "Unknown") (fst draw) (snd draw))
                            chunk)
            draws kw_chunks.
Proof.
  intros Htag.
  destruct (expand_entry_outcome img s st)
    as (name & sections & sampled & g1 & draws & g2 & sec_chunks & kw_chunks
        & He & Hs & Hd & Hk & Hrun & Hsec & Hkw).
  assert (name = lit "Unknown") as ->.
  { rewrite extract_flowchart_sections_str in He. injection He as <- _.
    now apply sign_name_of_untagged. }
  exists sections, sampled, g1, draws, sec_chunks, kw_chunks.
  eexists. split; [exact He|]. split; [exact Hs|]. split; [exact Hk|].
  split; [exact Hrun|]. split; [reflexivity|]. split; assumption.
Qed.

(** C2. An exception raised by the extraction and expansion of an entry
    leaves the state as it was before the entry (nothing appended, nothing
    drawn); the turn of the loop ends normally with one diagnostic
    printed, the loop goes on with the next entry, and the records
    [generate_qa_pairs] returns are those it returns without the entry. *)
Theorem failed_entry_is_skipped (entry img gt : json) st e st1 :
  getitem entry (lit "image") = Ok img ->
  getitem entry (lit "ground_truth") = Ok gt ->
  expand_entry img gt st = (Raise e, st1) ->
  st1 = st /\
  process_entry entry st = (Ok tt, add_printed st e) /\
  (forall after,
      entries_loop (entry :: after) st = entries_loop after (add_printed st e)) /\
  (forall before after st0,
      fst (generate_qa_pairs (before ++ entry :: after) st0)
      = fst (generate_qa_pairs (before ++ after) st0)).
Proof.
  intros Hi Hg Hraise.
  apply expand_entry_raise in Hraise as (Hn & -> & ->).
  assert (Hturn : forall st, process_entry entry st = (Ok tt, add_printed st TypeError)).
  { intros st'.
    destruct (process_entry_cases entry st')
      as [(e & _ & [He|[_ He]])|(img' & gt' & Hi' & Hg' & [(s & -> & _)|[_ E]])];
      congruence. }
  split; [reflexivity|]. split; [apply Hturn|]. split.
  - intros after. unfold entries_loop. rewrite for_each_cons.
    now erewrite bind_ok by apply Hturn.
  - intros before after st0. rewrite !generate_qa_pairs_unfold.
    unfold entries_loop. rewrite !for_each_app. unfold bind.
    destruct (for_each before process_entry _) as [[[]|e] st2]; [|reflexivity].
    rewrite for_each_cons. erewrite bind_ok by apply Hturn.
    destruct (entries_loop_same_run after (same_run_add_printed st2 TypeError))
      as [Hv [_ Hq]].
    unfold entries_loop in Hv, Hq.
    destruct (for_each after process_entry (add_printed st2 TypeError))
      as [[[]|e1] st3],
      (for_each after process_entry st2) as [[[]|e2] st4];
      simpl in Hv, Hq |- *; congruence.
Qed.


End EntryClaims.

(* ===================================================================== *)
(** ** The dict of sections *)
(* ===================================================================== *)



Lemma keys_dict_set V (d : dict V) k v :
  keys (dict_set d k v) = if existsb (str_eqb k) (keys d) then keys d else keys d ++ [k].
Proof.
  unfold keys. induction d as [|[k' v'] d IH]; simpl; [reflexivity|].
  destruct (str_eqb k' k) eqn:E.
  - apply str_eqb_eq in E. subst. now rewrite str_eqb_refl.
  - assert (str_eqb k k' = false) as ->.
    { apply str_eqb_neq. apply str_eqb_neq in E. congruence. }
    simpl. rewrite IH.
    now destruct (existsb (str_eqb k) (map fst d)).
Qed.

Lemma existsb_str_eqb k (l : list str) :
  existsb (str_eqb k) l = true <-> In k l.
Proof.
  rewrite existsb_exists. split.
  - intros (x & Hin & E). apply str_eqb_eq in E. now subst.
  - intros H. exists k. split; [assumption | apply str_eqb_refl].
Qed.



Lemma store_blocks_app blocks1 blocks2 d :
  store_blocks (blocks1 ++ blocks2) d = store_blocks blocks2 (store_blocks blocks1 d).
Proof. unfold store_blocks. apply fold_left_app. Qed.







Lemma section_pairs_length img name (sections : dict str) :
  length (flat_map (section_pairs img name) sections) = 3 * length sections.
Proof.
  induction sections as [|item rest IH]; simpl; [reflexivity|].
  rewrite length_app, IH. unfold section_pairs.
  rewrite length_map, section_templates_length. lia.
Qed.

Section Duplicates.

Context {R : Random}.


End Duplicates.

(* ===================================================================== *)
(** ** The loader *)
(* ===================================================================== *)

Lemma strip_prefix_self (sub rest : str) :
  strip_prefix Ascii.eqb sub (sub ++ rest) = Some rest.
Proof. apply strip_prefix_app. apply Ascii.eqb_refl. Qed.

(** [sub in s] holds of every string that has [sub] inside. *)
Lemma contains_substring (sub before after : str) :
  contains sub (before ++ sub ++ after) = true.
Proof.
  induction before as [|c before IH]; simpl.
  - destruct (sub ++ after) eqn:E; simpl; rewrite <- ?E;
      now rewrite strip_prefix_self.
  - now destruct (strip_prefix Ascii.eqb sub (c :: before ++ sub ++ after)).
Qed.

(** A string inside which [sub] is found has [sub] inside. *)
Lemma contains_true (sub s : str) :
  contains sub s = true -> exists before after, s = before ++ sub ++ after.
Proof.
  induction s as [|c s IH]; simpl.
  - destruct (strip_prefix Ascii.eqb sub []) as [rest|] eqn:E; [|discriminate].
    intros _. exists [], rest. simpl.
    apply strip_prefix_exact in E; [assumption|].
    intros a b Hab. now apply Ascii.eqb_eq.
  - destruct (strip_prefix Ascii.eqb sub (c :: s)) as [rest|] eqn:E.
    + intros _. exists [], rest. simpl.
      apply strip_prefix_exact in E; [assumption|].
      intros a b Hab. now apply Ascii.eqb_eq.
    + intros H. destruct (IH H) as (before & after & ->).
      now exists (c :: before), after.
Qed.

(** A top-level value that is not a list is refused. *)
Lemma load_handbook_not_list (data : json) :
  (forall entries, data <> JList entries) ->
  load_handbook data = Raise (ValueError (lit "Handbook data should be a list.")).
Proof. intros H. destruct data; try reflexivity. now destruct (H l). Qed.

(** What the loader returns is the list it was given. *)
Lemma load_handbook_unchanged (data : json) entries :
  load_handbook data = Ok entries -> data = JList entries.
Proof.
  destruct data; try discriminate. simpl.
  destruct (check_entries l); [|discriminate]. simpl. congruence.
Qed.

Lemma py_in_mapping (key : str) (d : list (str * json)) :
  py_in key (JObj d) = Ok (match dict_get d key with
                           | Some _ => true
                           | None => false
                           end).
Proof.
  simpl. f_equal. induction d as [|[k v] d IH]; simpl; [reflexivity|].
  destruct (str_eqb k key); [reflexivity | assumption].
Qed.

Lemma has_field_get (key : str) (d : list (str * json)) :
  has_field key (JObj d) <-> dict_get d key <> None.
Proof.
  unfold has_field. split.
  - intros (d' & v & E & Hget). injection E as <-. congruence.
  - intros H. destruct (dict_get d key) as [v|] eqn:E; [|congruence].
    now exists d, v.
Qed.

(** On mappings, the validation is the presence of the two fields: a list
    of mappings that all have them passes, the first mapping that lacks
    one raises the [ValueError]. *)
Lemma check_entries_mappings (entries : list json) :
  Forall (fun entry => exists d, entry = JObj d) entries ->
  (Forall (fun entry => has_field (lit "image") entry /\
                        has_field (lit "ground_truth") entry) entries ->
   check_entries entries = Ok tt) /\
  (Exists (fun entry => ~ (has_field (lit "image") entry /\
                           has_field (lit "ground_truth") entry)) entries ->
   check_entries entries
   = Raise (ValueError (lit "Each entry must contain 'image' and 'ground_truth'."))).
Proof.
  induction 1 as [|entry rest [d ->] _ [IHok IHbad]]; split.
  - reflexivity.
  - intros H. inversion H.
  - intros H. inversion H as [|? ? [Hi Hg] Hrest]; subst.
    cbn [check_entries]. rewrite !py_in_mapping.
    apply has_field_get in Hi, Hg.
    destruct (dict_get d (lit "image")); [|congruence].
    destruct (dict_get d (lit "ground_truth")); [|congruence].
    cbn [rbind negb]. now apply IHok.
  - intros H. cbn [check_entries]. rewrite !py_in_mapping.
    destruct (dict_get d (lit "image")) as [vi|] eqn:Ei; [|reflexivity].
    destruct (dict_get d (lit "ground_truth")) as [vg|] eqn:Eg; [|reflexivity].
    cbn [rbind negb].
    inversion H as [? ? Hbad|? ? Hrest]; subst; [|now apply IHbad].
    destruct Hbad. split; apply has_field_get; congruence.
Qed.

(** C7, where the code departs from it. A top-level list whose second
    element is a plain string passes the loader unchanged, although that
    element is no mapping and has neither field; [generate_qa_pairs] then
    raises on it outside the handler of the entry. *)
Theorem loader_passes_string_entry :
  load_handbook (JList [stop_entry; JStr plain_string])
  = Ok [stop_entry; JStr plain_string] /\
  ~ has_field (lit "image") (JStr plain_string) /\
  ~ has_field (lit "ground_truth") (JStr plain_string) /\
  fst (generate_qa_pairs [stop_entry; JStr plain_string] (initial 0))
  = Raise TypeError.
Proof.
  split; [reflexivity|].
  split; [intros (d & v & E & _); discriminate|].
  split; [intros (d & v & E & _); discriminate|].
  vm_compute. reflexivity.
Qed.

(** C10. A top-level list whose element is a string that has "image" and
    "ground_truth" inside passes the validation, and is returned as it is:
    on a string, [in] looks for a substring. *)
Theorem string_entry_passes_validation (s before1 after1 before2 after2 : str) :
  s = before1 ++ lit "image" ++ after1 ->
  s = before2 ++ lit "ground_truth" ++ after2 ->
  py_in (lit "image") (JStr s) = Ok true /\
  py_in (lit "ground_truth") (JStr s) = Ok true /\
  load_handbook (JList [JStr s]) = Ok [JStr s].
Proof.
  intros H1 H2.
  assert (Hi : contains (lit "image") s = true)
    by (rewrite H1; apply contains_substring).
  assert (Hg : contains (lit "ground_truth") s = true)
    by (rewrite H2; apply contains_substring).
  unfold load_handbook, check_entries, py_in. rewrite Hi, Hg.
  repeat split; reflexivity.
Qed.

Lemma string_entry_passes_validation_witness :
  load_handbook (JList [JStr plain_string]) = Ok [JStr plain_string].
Proof.
  apply (@string_entry_passes_validation
           plain_string [] (lit " and ground_truth") (lit "image and ") []);
    reflexivity.
Defined.

(* ===================================================================== *)
(** ** The extractor on examples *)
(* ===================================================================== *)

(** C3, where the code departs from it. The lookahead of [SECTION_RE] ends
    a body at the exact text [KEY WORDS] only: with the marker written
    "Key Words", which [extract_keywords] recognises, the body of the last
    section runs on over the marker and the keyword list up to the closing
    tag. *)
Theorem other_case_marker_stays_in_body :
  extract_flowchart_sections (JStr lowercase_marker_text)
  = Ok (lit "Stop", [(lit "1", py "Stop here. Key Words: `stop`")]) /\
  extract_keywords (JStr lowercase_marker_text) = [lit "stop"].
Proof. split; vm_compute; reflexivity. Qed.

(** With the marker written [KEY WORDS] the body ends before it. *)
Example exact_marker_ends_body :
  extract_flowchart_sections
    (JStr (py "<traffic_sign name=`Stop`><section title=`1`>Stop here. KEY WORDS: `stop`</traffic_sign>"))
  = Ok (lit "Stop", [(lit "1", lit "Stop here.")]).
Proof. vm_compute. reflexivity. Qed.

(* ===================================================================== *)
(** ** Where a section body ends *)
(* ===================================================================== *)

Section FirstEnd.
Import Re ReFacts ReSound Patterns.

(** [a*?] stops at the first rest the continuation accepts. *)
Lemma lazy_star_first fl A a (s : str) (k : str -> option A) x :
  lazy_star fl a s k = Some x ->
  exists run rest,
    s = run ++ rest /\ forallb (atom_ok fl a) run = true /\ k rest = Some x /\
    forall r1 r2, run = r1 ++ r2 -> r2 <> [] -> k (r2 ++ rest) = None.
Proof.
  induction s as [|c s IH]; rewrite lazy_star_unfold.
  - destruct (k []) eqn:E; [|discriminate].
    intros H; injection H as ->. exists [], [].
    split; [reflexivity|]. split; [reflexivity|]. split; [assumption|].
    intros r1 r2 Hr Hne. symmetry in Hr. apply app_eq_nil in Hr as [_ ->].
    congruence.
  - destruct (k (c :: s)) eqn:E.
    + intros H; injection H as ->. exists [], (c :: s).
      split; [reflexivity|]. split; [reflexivity|]. split; [assumption|].
      intros r1 r2 Hr Hne. symmetry in Hr. apply app_eq_nil in Hr as [_ ->].
      congruence.
    + destruct (atom_ok fl a c) eqn:Hc; [|discriminate].
      intros H. destruct (IH H) as (run & rest & -> & Hrun & Hk & Hfirst).
      exists (c :: run), rest. simpl. rewrite Hc.
      split; [reflexivity|]. split; [assumption|]. split; [assumption|].
      intros r1 r2 Hr Hne. destruct r1 as [|c' r1]; simpl in Hr.
      * subst r2. exact E.
      * injection Hr as _ Hr. now apply (Hfirst r1 r2).
Qed.

(** The lookahead of [SECTION_RE] accepts exactly the texts that start
    with one of its three markers. *)
Lemma section_end_ahead (s : str) (c : caps) A (k : str -> caps -> option A) :
  section_end s ->
  exec DOTALL
       (Ahead (Alt (Lit (lit "<section title"))
                   (Alt (Lit (lit "KEY WORDS")) (Lit (lit "</traffic_sign>")))))
       s c k
  = k s c.
Proof.
  intros Hend. cbn [exec].
  destruct Hend as [[t ->]|[[t ->]|[t ->]]].
  - now rewrite strip_prefix_app by apply chr_eq_refl.
  - destruct (strip_prefix (chr_eq DOTALL) (lit "<section title") (lit "KEY WORDS" ++ t));
      [reflexivity|].
    now rewrite strip_prefix_app by apply chr_eq_refl.
  - destruct (strip_prefix (chr_eq DOTALL) (lit "<section title") (lit "</traffic_sign>" ++ t));
      [reflexivity|].
    destruct (strip_prefix (chr_eq DOTALL) (lit "KEY WORDS") (lit "</traffic_sign>" ++ t));
      [reflexivity|].
    now rewrite strip_prefix_app by apply chr_eq_refl.
Qed.

Lemma ahead_section_end (s : str) (c : caps) A (k : str -> caps -> option A) :
  ~ section_end s ->
  exec DOTALL
       (Ahead (Alt (Lit (lit "<section title"))
                   (Alt (Lit (lit "KEY WORDS")) (Lit (lit "</traffic_sign>")))))
       s c k
  = None.
Proof.
  intros Hnot. cbn [exec].
  assert (Hno : forall p, In p [lit "<section title"; lit "KEY WORDS"; lit "</traffic_sign>"] ->
                          strip_prefix (chr_eq DOTALL) p s = None).
  { intros p Hp. destruct (strip_prefix (chr_eq DOTALL) p s) as [t|] eqn:E;
      [|reflexivity].
    apply strip_prefix_exact in E; [|intros a b; now apply chr_eq_exact].
    destruct Hnot. unfold section_end. simpl in Hp.
    destruct Hp as [<-|[<-|[<-|[]]]]; eauto. }
  rewrite !Hno by (simpl; auto). reflexivity.
Qed.

Lemma starts_with_dec (p s : str) :
  (exists t, s = p ++ t) \/ ~ (exists t, s = p ++ t).
Proof.
  destruct (strip_prefix Ascii.eqb p s) as [t|] eqn:E.
  - left. exists t. apply strip_prefix_exact in E; [assumption|].
    intros a b Hab. now apply Ascii.eqb_eq.
  - right. intros [t ->]. rewrite strip_prefix_self in E. discriminate.
Qed.

Lemma section_end_dec (s : str) : section_end s \/ ~ section_end s.
Proof.
  unfold section_end.
  destruct (starts_with_dec (lit "<section title") s);
    destruct (starts_with_dec (lit "KEY WORDS") s);
    destruct (starts_with_dec (lit "</traffic_sign>") s); tauto.
Qed.

(** The body of a section match is the shortest text after the title tag
    that is followed by a marker: no marker starts inside the body. *)
Lemma section_body_first_end (here rest : str) c :
  match_here DOTALL SECTION_RE here = Some (rest, c) ->
  exists title body,
    c = [(2, body); (1, title)] /\
    here = (lit "<section title=" ++ [dquote]) ++ title
           ++ (dquote :: lit ">") ++ body ++ rest /\
    section_end rest /\
    forall b1 b2, body = b1 ++ b2 -> b2 <> [] -> ~ section_end (b2 ++ rest).
Proof.
  unfold match_here, SECTION_RE.
  remember (Ahead (Alt (Lit (lit "<section title"))
                       (Alt (Lit (lit "KEY WORDS")) (Lit (lit "</traffic_sign>")))))
    as look eqn:Elook.
  cbn [exec].
  destruct (strip_prefix (chr_eq DOTALL) (lit "<section title=" ++ [dquote]) here)
    as [s1|] eqn:Eopen; [|discriminate].
  apply strip_prefix_exact in Eopen; [|intros a b; now apply chr_eq_exact].
  destruct s1 as [|x s2]; [discriminate|].
  destruct (atom_ok DOTALL Dot x); [|discriminate].
  unfold star. intros H.
  apply lazy_star_some in H as (run & s3 & -> & _ & H).
  destruct (strip_prefix (chr_eq DOTALL) (dquote :: lit ">") s3) as [s4|] eqn:Eclose;
    [|discriminate].
  apply strip_prefix_exact in Eclose; [|intros a b; now apply chr_eq_exact].
  apply lazy_star_first in H as (body & rest' & -> & _ & H & Hfirst).
  subst look.
  destruct (section_end_dec rest') as [Hend|Hnot];
    [|now rewrite ahead_section_end in H].
  rewrite section_end_ahead in H by assumption. injection H as <- <-.
  subst. exists (x :: run), body.
  split; [now rewrite consumed_app, app_comm_cons, consumed_app|].
  split; [reflexivity|]. split; [assumption|].
  intros b1 b2 Hb Hne Hend'. specialize (Hfirst b1 b2 Hb Hne).
  now rewrite section_end_ahead in Hfirst.
Qed.

(** X19. Every section match of a text: the title and the body between
    the tags, a marker right after the body, in the case the lookahead
    writes it, and none before: a body ends at the first [<section title],
    [KEY WORDS] or [</traffic_sign>] after its title tag. *)
Lemma section_matches_first_end (s : str) :
  Forall (fun m => exists before here rest title body,
              s = before ++ here /\
              group m 1 = Some title /\ group m 2 = Some body /\
              here = (lit "<section title=" ++ [dquote]) ++ title
                     ++ (dquote :: lit ">") ++ body ++ rest /\
              section_end rest /\
              forall b1 b2, body = b1 ++ b2 -> b2 <> [] ->
                            ~ section_end (b2 ++ rest))
         (finditer DOTALL SECTION_RE s).
Proof.
  eapply Forall_impl; [|apply finditer_from_matches].
  intros m (before & here & rest & -> & Hm).
  apply section_body_first_end in Hm as (title & body & -> & -> & Hend & Hfirst).
  exists before. eexists. exists rest, title, body.
  repeat split; assumption.
Qed.

End FirstEnd.


(* ===================================================================== *)
(** ** The claims on the example inputs *)
(* ===================================================================== *)

(** C1, as it is written, fails: the one sampled keyword of
    [one_keyword_entry] yields 8 records, not 9. *)
Lemma nine_pairs_per_keyword_counterexample :
  exists out st',
    generate_qa_pairs [one_keyword_entry] (initial 0) = (Ok out, st') /\
    extract_flowchart_sections (JStr one_keyword_text) = Ok (lit "Unknown", []) /\
    fst (sample 0 (extract_keywords (JStr one_keyword_text)) 1) = [lit "stop"] /\
    length out = 8 /\
    length out <> 9 /\
    length (KEYWORD_TEMPLATES ++ SCENARIO_TEMPLATES) <> 9.
Proof.
  eexists. eexists. split; [vm_compute; reflexivity|].
  split; [vm_compute; reflexivity|]. split; [vm_compute; reflexivity|].
  split; [reflexivity|]. split; discriminate.
Qed.

Lemma failed_entry_is_skipped_witness :
  expand_entry (JStr (lit "null.png")) JNull (initial 0)
  = (Raise TypeError, initial 0) /\
  process_entry null_entry (initial 0)
  = (Ok tt, add_printed (initial 0) TypeError) /\
  fst (generate_qa_pairs [stop_entry; null_entry; one_keyword_entry] (initial 0))
  = fst (generate_qa_pairs [stop_entry; one_keyword_entry] (initial 0)).
Proof.
  destruct (@failed_entry_is_skipped counter_random null_entry
              (JStr (lit "null.png")) JNull (initial 0) TypeError (initial 0)
              eq_refl eq_refl eq_refl) as (_ & Hturn & _ & Hout).
  split; [reflexivity|]. split; [exact Hturn|].
  exact (Hout [stop_entry] [one_keyword_entry] (initial 0)).
Defined.


Lemma one_body_per_keyword_witness :
  exists draws kw_chunks,
    map fst draws = [lit "stop"; lit "yield"] /\
    Forall2 (fun draw chunk =>
               In (snd draw) [lit "Stop body"; lit "Yield body"] /\
               length chunk = 8 /\
               forall r, In r chunk ->
                         answer r = keyword_answer (lit "Stop Sign") (fst draw) (snd draw))
            draws kw_chunks.
Proof.
  destruct (@one_body_per_keyword counter_random counter_choice_in
              (JStr (lit "stop.png")) stop_text (initial 0))
    as (name & sections & sampled & g1 & draws & sec_chunks & kw_chunks & st'
        & He & Hs & Hd & Hk & Hrun & Hq & Hn & Hsec & Hall).
  assert (Hname : name = lit "Stop Sign" /\
                  sections = [(lit "1", lit "Stop body"); (lit "2", lit "Yield body")]).
  { vm_compute in He. injection He as <- <-. split; reflexivity. }
  destruct Hname as [-> ->].
  assert (Hsampled : sampled = [lit "stop"; lit "yield"]).
  { vm_compute in Hs. injection Hs as <- _. reflexivity. }
  exists draws, kw_chunks. split; [now rewrite Hk|].
  eapply Forall2_impl; [|exact Hall].
  intros draw chunk (_ & Hin & Hlen & _ & Hans).
  split; [apply Hin; discriminate|]. split; [assumption|].
  exact Hans.
Defined.

Lemma untagged_text_is_Unknown_witness :
  ~ has_sign_tag untagged_text /\
  extract_flowchart_sections (JStr untagged_text)
  = Ok (lit "Unknown", [(lit "5", lit "Keep right.")]).
Proof.
  assert (Htag : ~ has_sign_tag untagged_text)
    by (apply search_None_untagged; vm_compute; reflexivity).
  split; [exact Htag|].
  destruct (@untagged_text_is_Unknown counter_random (JStr (lit "lane.png"))
              untagged_text (initial 0) Htag)
    as (sections & sampled & g1 & draws & sec_chunks & kw_chunks & st'
        & He & _).
  rewrite He. vm_compute in He. injection He as <-. reflexivity.
Defined.


(** The example of the specification: sign "Stop Sign" with the sections
    "1" and "2". Three questions from the set of section 1, three from the
    set of section 2, the bodies as answers. *)
Example stop_sign_section_pairs :
  map (fun r => (question r, answer r))
      (firstn 6 (ok_value (fst stop_run) []))
  = [ (lit "What is the immediate action a driver should take when seeing the 'Stop Sign' sign?",
       lit "Stop body");
      (lit "When is the 'Stop Sign' sign typically used?", lit "Stop body");
      (lit "What safety rule does section 1 enforce in the 'Stop Sign' sign?",
       lit "Stop body");
      (lit "What should a driver do at a 'Stop Sign' when there is no stop line?",
       lit "Yield body");
      (lit "How does a driver react to a 'Stop Sign' when there's a pedestrian crossing?",
       lit "Yield body");
      (lit "What does section 2 of the 'Stop Sign' sign indicate?", lit "Yield body") ].
Proof. vm_compute. reflexivity. Qed.

(** The 8 records of the keyword of [one_keyword_entry]. *)
Example one_keyword_pairs :
  map (fun r => (question r, answer r))
      (ok_value (fst (generate_qa_pairs [one_keyword_entry] (initial 0))) [])
  = map (fun q => (q, lit "In the context of the 'Unknown' sign, the keyword 'stop' relates to: Refer to sign rules."))
      [ lit "How is 'stop' handled when a driver encounters the 'Unknown' sign?";
        lit "Explain why 'stop' is important under the 'Unknown' sign.";
        lit "What is the implication of 'stop' for drivers near the 'Unknown' sign?";
        lit "In what situation does 'stop' apply under the 'Unknown' sign?";
        lit "If a driver is near a 'Unknown' sign and sees 'stop', what should they do?";
        lit "Describe what action should be taken if 'stop' occurs near a 'Unknown' sign.";
        lit "Why must a driver be cautious of 'stop' when the 'Unknown' sign is present?";
        lit "What could happen if a driver ignores the 'stop' instruction under the 'Unknown' sign?" ].
Proof. vm_compute. reflexivity. Qed.

(** A section number without a template set of its own takes the generic
    questions. *)
Example generic_section_pairs :
  map (fun r => (question r, answer r))
      (firstn 3 (ok_value (fst (generate_qa_pairs
                                  [entry_of "lane.png" (JStr untagged_text)]
                                  (initial 0))) []))
  = map (fun q => (q, lit "Keep right."))
      [ lit "What does section 5 of the 'Unknown' sign mean?";
        lit "Explain the rule under section 5 for the 'Unknown' traffic sign.";
        lit "How should drivers behave according to section 5 of the 'Unknown' sign?" ].
Proof. vm_compute. reflexivity. Qed.

(* ===================================================================== *)
(** ** Further properties of the loader *)
(* ===================================================================== *)

Lemma check_entries_app (l1 l2 : list json) :
  check_entries (l1 ++ l2)
  = rbind (check_entries l1) (fun _ => check_entries l2).
Proof.
  induction l1 as [|entry l1 IH]; [reflexivity|].
  cbn [app check_entries].
  destruct (py_in (lit "image") entry) as [[|]|e]; cbn [rbind negb];
    try reflexivity.
  destruct (py_in (lit "ground_truth") entry) as [[|]|e]; cbn [rbind negb];
    try reflexivity.
  apply IH.
Qed.

(** X1. The loader returns exactly the lists whose every element passes
    the two [in] tests, and returns them as they are; any other value
    raises. *)
Theorem load_handbook_accepts (data : json) (entries : list json) :
  load_handbook data = Ok entries <->
  data = JList entries /\
  Forall (fun entry => py_in (lit "image") entry = Ok true /\
                       py_in (lit "ground_truth") entry = Ok true) entries.
Proof.
  split.
  - intros H. pose proof (load_handbook_unchanged _ H) as ->.
    split; [reflexivity|]. unfold load_handbook in H.
    destruct (check_entries entries) as [[]|e] eqn:E; [clear H|discriminate].
    induction entries as [|entry rest IH]; constructor;
      cbn [check_entries] in E;
      destruct (py_in (lit "image") entry) as [[|]|e1]; try discriminate;
      destruct (py_in (lit "ground_truth") entry) as [[|]|e2]; try discriminate;
      auto.
  - intros [-> H]. unfold load_handbook.
    assert (E : check_entries entries = Ok tt).
    { induction H as [|entry rest [Hi Hg] _ IH]; [reflexivity|].
      cbn [check_entries]. now rewrite Hi, Hg. }
    now rewrite E.
Qed.

(** X2. On a list of mappings the loader checks the presence of the two
    fields: it returns the list when every mapping has both, and raises
    the [ValueError] of the entries when some mapping lacks one. *)
Theorem load_handbook_mappings (entries : list json) :
  Forall (fun entry => exists d, entry = JObj d) entries ->
  (Forall well_formed entries -> load_handbook (JList entries) = Ok entries) /\
  (Exists (fun entry => ~ well_formed entry) entries ->
   load_handbook (JList entries)
   = Raise (ValueError (lit "Each entry must contain 'image' and 'ground_truth'."))).
Proof.
  intros Hmap. destruct (check_entries_mappings Hmap) as [Hok Hbad].
  unfold load_handbook, well_formed. split; intros H.
  - now rewrite (Hok H).
  - now rewrite (Hbad H).
Qed.

Lemma load_handbook_mappings_witness :
  load_handbook (JList [stop_entry; null_entry]) = Ok [stop_entry; null_entry] /\
  load_handbook (JList [stop_entry; JObj [(lit "image", JNull)]])
  = Raise (ValueError (lit "Each entry must contain 'image' and 'ground_truth'.")).
Proof.
  split.
  - apply (@load_handbook_mappings [stop_entry; null_entry]).
    + repeat constructor; eexists; reflexivity.
    + repeat constructor; eexists; eexists; split; reflexivity.
  - apply (@load_handbook_mappings [stop_entry; JObj [(lit "image", JNull)]]).
    + repeat constructor; eexists; reflexivity.
    + apply Exists_cons_tl. apply Exists_cons_hd.
      intros [_ (d & v & E & Hget)]. injection E as <-. discriminate.
Defined.

(** X3. An element that is a number, a boolean or null does not support
    [in]: when the elements before it pass, the loader raises [TypeError],
    not the [ValueError] of the entries. *)
Theorem load_handbook_scalar_entry (before after : list json) (entry : json) :
  check_entries before = Ok tt ->
  entry = JNull \/ (exists b, entry = JBool b) \/ (exists n, entry = JNum n) ->
  load_handbook (JList (before ++ entry :: after)) = Raise TypeError.
Proof.
  intros Hbefore Hentry. unfold load_handbook.
  rewrite check_entries_app, Hbefore. cbn [rbind check_entries].
  destruct Hentry as [->|[[b ->]|[n ->]]]; reflexivity.
Qed.

Lemma load_handbook_scalar_entry_witness :
  load_handbook (JList [stop_entry; JNum 7; null_entry]) = Raise TypeError.
Proof.
  apply (@load_handbook_scalar_entry [stop_entry] [null_entry] (JNum 7)).
  - reflexivity.
  - right. right. now exists 7%Z.
Defined.

(* ===================================================================== *)
(** ** Further properties of the run over the entries *)
(* ===================================================================== *)

Lemma getitem_has_field (entry : json) (key : str) :
  has_field key entry <-> exists v, getitem entry key = Ok v.
Proof.
  split.
  - intros (d & v & -> & Hget). exists v. simpl. now rewrite Hget.
  - intros [v H]. destruct entry; try discriminate. simpl in H.
    destruct (dict_get d key) as [v'|] eqn:E; [|discriminate].
    now exists d, v'.
Qed.

Lemma well_formed_getitem (entry : json) :
  well_formed entry <->
  exists img gt, getitem entry (lit "image") = Ok img /\
                 getitem entry (lit "ground_truth") = Ok gt.
Proof.
  unfold well_formed. rewrite !getitem_has_field. split.
  - intros [[img Hi] [gt Hg]]. eauto.
  - intros (img & gt & Hi & Hg). eauto.
Qed.

Lemma keyword_pairs_length img name (draws : list (str * str)) :
  length (flat_map (keyword_pairs img name) draws) = 8 * length draws.
Proof.
  induction draws as [|d ds IH]; [reflexivity|].
  cbn [flat_map]. rewrite length_app, IH. unfold keyword_pairs.
  rewrite length_map, keyword_templates_length. simpl. lia.
Qed.

Section RunFacts.

Context {R : Random}.

(** A turn of the loop on a well formed entry: it ends normally. *)
Lemma process_entry_well_formed (entry : json) st :
  well_formed entry ->
  exists chunk g,
    process_entry entry st
    = (Ok tt, {| generator := g;
                 qa_pairs := qa_pairs st ++ chunk;
                 printed := printed st
                            ++ (if has_text entry then [] else [TypeError]) |}) /\
    (forall st0, generator st0 = generator st ->
                 process_entry entry st0
                 = (Ok tt, {| generator := g;
                              qa_pairs := qa_pairs st0 ++ chunk;
                              printed := printed st0
                                         ++ (if has_text entry then [] else [TypeError]) |})) /\
    ((forall g0 population k,
         k <= length population -> length (fst (sample g0 population k)) = k) ->
     length chunk = entry_size entry).
Proof.
  intros Hwf. apply well_formed_getitem in Hwf as (img & gt & Hi & Hg).
  unfold has_text, entry_size. rewrite Hg.
  assert (Hcase : forall st0,
             (exists s, gt = JStr s /\
                process_entry entry st0
                = (Ok tt, with_generator
                            (add_pairs st0 (entry_pairs img s (generator st0)))
                            (snd (entry_draws s (generator st0))))) \/
             ((forall s, gt <> JStr s) /\
              process_entry entry st0 = (Ok tt, add_printed st0 TypeError))).
  { intros st0.
    destruct (process_entry_cases entry st0)
      as [(e & _ & [He|[_ He]])|(img' & gt' & Hi' & Hg' & Hc)]; try congruence.
    assert (gt' = gt) by congruence. assert (img' = img) by congruence.
    subst. exact Hc. }
  destruct (json_str_or_not gt) as [[s ->]|Hn].
  - exists (entry_pairs img s (generator st)), (snd (entry_draws s (generator st))).
    split; [|split].
    + destruct (Hcase st) as [(s' & Es & E)|[Hn _]]; [|now destruct (Hn s)].
      injection Es as <-. rewrite E. unfold with_generator, add_pairs. simpl.
      now rewrite app_nil_r.
    + intros st0 Hgen.
      destruct (Hcase st0) as [(s' & Es & E)|[Hn _]]; [|now destruct (Hn s)].
      injection Es as <-. rewrite E, Hgen. unfold with_generator, add_pairs.
      simpl. now rewrite app_nil_r.
    + intros Hlen. rewrite extract_flowchart_sections_str.
      unfold entry_pairs. rewrite length_app, section_pairs_length. f_equal.
      unfold entry_draws, sampled_keywords.
      specialize (Hlen (generator st) (extract_keywords (JStr s))
                       (Nat.min (length (extract_keywords (JStr s))) 5)
                       (Nat.le_min_l _ _)).
      destruct (sample (generator st) (extract_keywords (JStr s))
                       (Nat.min (length (extract_keywords (JStr s))) 5))
        as [kws g1].
      cbn [fst] in Hlen.
      pose proof (choose_sections_keywords (sections_of s) kws g1) as Hk.
      apply (f_equal (@length str)) in Hk. rewrite length_map in Hk.
      now rewrite <- Hlen, <- Hk, keyword_pairs_length.
  - exists [], (generator st).
    assert (Htext : match gt with JStr _ => true | _ => false end = false).
    { destruct gt; try reflexivity. now destruct (Hn s). }
    rewrite Htext. split; [|split].
    + destruct (Hcase st) as [(s & -> & _)|[_ E]]; [now destruct (Hn s)|].
      rewrite E. unfold add_printed. now rewrite app_nil_r.
    + intros st0 Hgen.
      destruct (Hcase st0) as [(s & -> & _)|[_ E]]; [now destruct (Hn s)|].
      rewrite E, <- Hgen. unfold add_printed. now rewrite app_nil_r.
    + intros _. now rewrite extract_flowchart_sections_not_str.
Qed.

(** A turn of the loop on an entry that is not well formed: the exception
    of the field read leaves the turn, and the loop. *)
Lemma process_entry_ill_formed (entry : json) st :
  ~ well_formed entry ->
  exists e,
    process_entry entry st = (Raise e, st) /\
    (getitem entry (lit "image") = Raise e \/
     (exists img, getitem entry (lit "image") = Ok img) /\
     getitem entry (lit "ground_truth") = Raise e).
Proof.
  intros Hnot.
  destruct (process_entry_cases entry st)
    as [(e & E & He)|(img & gt & Hi & Hg & _)].
  - exists e. split; assumption.
  - destruct Hnot. apply well_formed_getitem. eauto.
Qed.

Lemma well_formed_dec (entry : json) : well_formed entry \/ ~ well_formed entry.
Proof.
  destruct (getitem entry (lit "image")) as [img|e] eqn:Ei.
  - destruct (getitem entry (lit "ground_truth")) as [gt|e] eqn:Eg.
    + left. apply well_formed_getitem. eauto.
    + right. intros H. apply well_formed_getitem in H as (? & ? & _ & H).
      congruence.
  - right. intros H. apply well_formed_getitem in H as (? & ? & H & _).
    congruence.
Qed.

(** The loop on well formed entries: it ends normally, appends one chunk
    per entry and prints one diagnostic per entry without a text. *)
Lemma entries_loop_well_formed (data : list json) st :
  Forall well_formed data ->
  exists chunks g,
    entries_loop data st
    = (Ok tt, {| generator := g;
                 qa_pairs := qa_pairs st ++ concat chunks;
                 printed := printed st
                            ++ repeat TypeError
                                 (length (filter (fun e => negb (has_text e)) data)) |}) /\
    (forall st0, generator st0 = generator st ->
                 entries_loop data st0
                 = (Ok tt, {| generator := g;
                              qa_pairs := qa_pairs st0 ++ concat chunks;
                              printed := printed st0
                                         ++ repeat TypeError
                                              (length (filter (fun e => negb (has_text e)) data)) |})) /\
    ((forall g0 population k,
         k <= length population -> length (fst (sample g0 population k)) = k) ->
     Forall2 (fun entry chunk => length chunk = entry_size entry) data chunks).
Proof.
  intros H. revert st. unfold entries_loop.
  induction H as [|entry rest Hwf _ IH]; intros st.
  - exists [], (generator st). split; [|split].
    + rewrite for_each_nil. destruct st. simpl. now rewrite !app_nil_r.
    + intros st0 Hgen. rewrite for_each_nil, <- Hgen. destruct st0. simpl.
      now rewrite !app_nil_r.
    + constructor.
  - destruct (process_entry_well_formed st Hwf) as (chunk & g1 & E1 & E1' & Hsize).
    match type of E1 with _ = (_, ?st1) =>
      destruct (IH st1) as (chunks & g & E & E' & Hsizes) end.
    exists (chunk :: chunks), g.
    assert (Hp : forall l : list exn,
               (l ++ (if has_text entry then [] else [TypeError]))
               ++ repeat TypeError
                    (length (filter (fun e => negb (has_text e)) rest))
               = l ++ repeat TypeError
                        (length (filter (fun e => negb (has_text e))
                                        (entry :: rest)))).
    { intros l. rewrite <- app_assoc. f_equal. cbn [filter].
      now destruct (has_text entry). }
    split; [|split].
    + rewrite for_each_cons. erewrite bind_ok by exact E1. rewrite E.
      cbn [generator qa_pairs printed concat]. now rewrite Hp, <- app_assoc.
    + intros st0 Hgen. rewrite for_each_cons.
      erewrite bind_ok by exact (E1' st0 Hgen). rewrite E' by reflexivity.
      cbn [generator qa_pairs printed concat]. now rewrite Hp, <- app_assoc.
    + intros Hlen. constructor; auto.
Qed.

Lemma entries_loop_ok_well_formed (data : list json) st st' :
  entries_loop data st = (Ok tt, st') -> Forall well_formed data.
Proof.
  unfold entries_loop. revert st.
  induction data as [|entry rest IH]; intros st H; constructor.
  - destruct (well_formed_dec entry) as [Hwf|Hnot]; [assumption|].
    destruct (process_entry_ill_formed st Hnot) as (e & E & _).
    rewrite for_each_cons in H. erewrite bind_raise in H by exact E.
    discriminate.
  - rewrite for_each_cons in H. unfold bind in H.
    destruct (process_entry entry st) as [[[]|e] st1]; [|discriminate].
    eapply IH. eassumption.
Qed.

Lemma generate_ok_well_formed (data : list json) st out st' :
  generate_qa_pairs data st = (Ok out, st') -> Forall well_formed data.
Proof.
  rewrite generate_qa_pairs_unfold.
  destruct (entries_loop data _) as [[[]|e] st1] eqn:E; [|discriminate].
  intros _. eapply entries_loop_ok_well_formed. eassumption.
Qed.

(** What [generate_qa_pairs] returns on well formed entries. *)
Lemma generate_well_formed (data : list json) st :
  Forall well_formed data ->
  exists chunks g,
    generate_qa_pairs data st
    = (Ok (concat chunks),
       {| generator := g;
          qa_pairs := concat chunks;
          printed := printed st
                     ++ repeat TypeError
                          (length (filter (fun e => negb (has_text e)) data)) |}) /\
    (forall st0, generator st0 = generator st ->
                 entries_loop data st0
                 = (Ok tt, {| generator := g;
                              qa_pairs := qa_pairs st0 ++ concat chunks;
                              printed := printed st0
                                         ++ repeat TypeError
                                              (length (filter (fun e => negb (has_text e)) data)) |})) /\
    ((forall g0 population k,
         k <= length population -> length (fst (sample g0 population k)) = k) ->
     Forall2 (fun entry chunk => length chunk = entry_size entry) data chunks).
Proof.
  intros H.
  destruct (entries_loop_well_formed
              {| generator := generator st; qa_pairs := []; printed := printed st |} H)
    as (chunks & g & E & E' & Hsize).
  exists chunks, g. split; [|split; [|assumption]].
  - rewrite generate_qa_pairs_unfold, E. reflexivity.
  - intros st0 Hgen. apply E'. exact Hgen.
Qed.

(** X4. [generate_qa_pairs] returns a list exactly when every entry is a
    mapping with the two fields: no other exception leaves the loop. *)
Theorem generate_returns_iff_well_formed (data : list json) st :
  (exists out st', generate_qa_pairs data st = (Ok out, st')) <->
  Forall well_formed data.
Proof.
  split.
  - intros (out & st' & H). eapply generate_ok_well_formed. eassumption.
  - intros H. destruct (generate_well_formed st H) as (chunks & g & E & _).
    rewrite E. eauto.
Qed.

(** X5. An entry that is not a mapping with the two fields ends the whole
    run, when the entries before it are well formed: [generate_qa_pairs]
    raises the exception of the field read ([TypeError] for an entry that
    is not a mapping, [KeyError] for a missing key) and returns none of
    the records appended so far. *)
Theorem generate_raises_at_first_ill_formed
        (before after : list json) (entry : json) st :
  Forall well_formed before ->
  ~ well_formed entry ->
  exists e,
    fst (generate_qa_pairs (before ++ entry :: after) st) = Raise e /\
    (getitem entry (lit "image") = Raise e \/
     (exists img, getitem entry (lit "image") = Ok img) /\
     getitem entry (lit "ground_truth") = Raise e) /\
    ((forall d, entry <> JObj d) -> e = TypeError).
Proof.
  intros Hbefore Hnot.
  pose (st0 := {| generator := generator st; qa_pairs := [];
                  printed := printed st |}).
  destruct (entries_loop_well_formed st0 Hbefore) as (chunks & g & E & _).
  match type of E with _ = (_, ?s) =>
    destruct (process_entry_ill_formed s Hnot) as (e & E1 & He) end.
  exists e. split; [|split; [assumption|]].
  - rewrite generate_qa_pairs_unfold. fold st0. unfold entries_loop in *.
    rewrite for_each_app. erewrite bind_ok by exact E. rewrite for_each_cons.
    now erewrite bind_raise by exact E1.
  - intros Hobj. destruct entry; try (now destruct (Hobj d));
      destruct He as [He|[_ He]]; simpl in He; congruence.
Qed.


Lemma length_concat_sizes A (f : json -> nat) (data : list json) (chunks : list (list A)) :
  Forall2 (fun entry chunk => length chunk = f entry) data chunks ->
  length (concat chunks) = list_sum (map f data).
Proof.
  induction 1 as [|entry chunk data chunks Hh _ IH]; [reflexivity|].
  cbn [concat map list_sum]. now rewrite length_app, Hh, IH.
Qed.

(** X6. When [random.sample] returns as many elements as it is asked for,
    the number of records of a run does not depend on the draws: it is the
    sum over the entries of 3 per section and 8 per keyword, of at most 5
    keywords, and nothing for an entry whose ground truth is not a text. *)
Theorem output_size
        (Hsample : forall g population k,
            k <= length population -> length (fst (sample g population k)) = k)
        (data : list json) st out st' :
  generate_qa_pairs data st = (Ok out, st') ->
  length out = list_sum (map entry_size data).
Proof.
  intros H. pose proof (generate_ok_well_formed _ _ H) as Hwf.
  destruct (generate_well_formed st Hwf) as (chunks & g & E & _ & Hsize).
  rewrite E in H. injection H as <- _.
  apply length_concat_sizes. now apply Hsize.
Qed.

(** X7. A run that returns has printed one diagnostic, a [TypeError], per
    entry whose ground truth is not a text, and nothing else. *)
Theorem one_diagnostic_per_skipped_entry (data : list json) st out st' :
  generate_qa_pairs data st = (Ok out, st') ->
  printed st'
  = printed st
    ++ repeat TypeError (length (filter (fun e => negb (has_text e)) data)).
Proof.
  intros H. pose proof (generate_ok_well_formed _ _ H) as Hwf.
  destruct (generate_well_formed st Hwf) as (chunks & g & E & _).
  rewrite E in H. now injection H as _ <-.
Qed.

(** X8. Runs compose: the records of two lists of entries one after the
    other are the records of the first followed by the records of the
    second, run from the generator the first run left. *)
Theorem generate_qa_pairs_app (d1 d2 : list json) st out1 st1 out2 st2 :
  generate_qa_pairs d1 st = (Ok out1, st1) ->
  generate_qa_pairs d2 st1 = (Ok out2, st2) ->
  generate_qa_pairs (d1 ++ d2) st
  = (Ok (out1 ++ out2),
     {| generator := generator st2;
        qa_pairs := out1 ++ out2;
        printed := printed st2 |}).
Proof.
  intros H1 H2.
  pose proof (generate_ok_well_formed _ _ H1) as Hwf1.
  pose proof (generate_ok_well_formed _ _ H2) as Hwf2.
  destruct (entries_loop_well_formed
              {| generator := generator st; qa_pairs := []; printed := printed st |}
              Hwf1) as (c1 & g1 & L1 & _).
  rewrite generate_qa_pairs_unfold, L1 in H1. injection H1 as <- <-.
  match type of H2 with generate_qa_pairs _ ?s1 = _ =>
    destruct (generate_well_formed s1 Hwf2) as (c2 & g2 & E2 & L2 & _) end.
  rewrite E2 in H2. injection H2 as <- <-.
  rewrite generate_qa_pairs_unfold. unfold entries_loop in *.
  rewrite for_each_app. erewrite bind_ok by exact L1.
  rewrite L2 by reflexivity. reflexivity.
Qed.

(** X9. When [random.sample] returns as many elements as it is asked for,
    all of them from the population: the keyword chunks of a text entry
    are at most 5, as many as the keywords when these are fewer, and each
    is about a keyword [extract_keywords] returned. *)
Theorem keyword_chunks_from_extracted
        (Hlength : forall g population k,
            k <= length population -> length (fst (sample g population k)) = k)
        (Hfrom : forall g population k,
            k <= length population -> incl (fst (sample g population k)) population)
        img (s : str) st :
  exists name sections section_part kw_chunks draws st',
    extract_flowchart_sections (JStr s) = Ok (name, sections) /\
    expand_entry img (JStr s) st = (Ok tt, st') /\
    qa_pairs st' = qa_pairs st ++ section_part ++ concat kw_chunks /\
    length section_part = 3 * length sections /\
    length kw_chunks = Nat.min (length (extract_keywords (JStr s))) 5 /\
    length kw_chunks <= 5 /\
    Forall2 (fun draw chunk =>
               In (fst draw) (extract_keywords (JStr s)) /\
               instantiates (KEYWORD_TEMPLATES ++ SCENARIO_TEMPLATES)
                            (keyword_kwargs (fst draw) name) img
                            (keyword_answer name (fst draw) (snd draw)) chunk)
            draws kw_chunks.
Proof.
  destruct (expand_entry_outcome img s st)
    as (name & sections & sampled & g1 & draws & g2 & sec_chunks & kw_chunks
        & He & Hs & Hd & Hk & Hrun & Hsec & Hkw).
  unfold sampled_keywords in Hs.
  pose proof (Hlength (generator st) (extract_keywords (JStr s)) _
                      (Nat.le_min_l _ 5)) as Hl.
  pose proof (Hfrom (generator st) (extract_keywords (JStr s)) _
                    (Nat.le_min_l _ 5)) as Hi.
  rewrite Hs in Hl, Hi. cbn [fst] in Hl, Hi.
  assert (Hn : length kw_chunks = length sampled).
  { rewrite <- (Forall2_length Hkw), <- Hk. now rewrite length_map. }
  exists name, sections, (concat sec_chunks), kw_chunks, draws.
  eexists. split; [exact He|]. split; [exact Hrun|]. split; [reflexivity|].
  split; [|split; [|split]].
  - clear - Hsec. induction Hsec as [|item chunk items chunks Hh _ IH];
      [reflexivity|].
    cbn [concat length]. rewrite length_app, IH, (instantiates_length Hh),
      section_templates_length. lia.
  - now rewrite Hn, Hl.
  - rewrite Hn, Hl. apply Nat.le_min_r.
  - assert (Hall : Forall (fun draw => In (fst draw) (extract_keywords (JStr s))) draws).
    { apply Forall_forall. intros draw Hin. apply Hi. rewrite <- Hk.
      now apply in_map. }
    apply (Forall2_Forall_left Hall Hkw).
Qed.

End RunFacts.

Lemma generate_raises_at_first_ill_formed_witness :
  fst (generate_qa_pairs [stop_entry; JObj [(lit "image", JNull)]; null_entry]
                         (initial 0))
  = Raise (KeyError (lit "ground_truth")).
Proof.
  destruct (@generate_raises_at_first_ill_formed counter_random
              [stop_entry] [null_entry] (JObj [(lit "image", JNull)]) (initial 0))
    as (e & Hrun & He & _).
  - repeat constructor; eexists; eexists; split; reflexivity.
  - intros [_ (d & v & E & Hget)]. injection E as <-. discriminate.
  - cbn [app] in Hrun. rewrite Hrun.
    destruct He as [He|[_ He]]; [discriminate He|].
    injection He as <-. reflexivity.
Defined.

Lemma counter_sample_length (g : nat) (population : list str) (k : nat) :
  k <= length population ->
  length (fst (@sample counter_random g population k)) = k.
Proof.
  intros H. simpl. rewrite length_firstn. unfold rotate.
  rewrite length_app, length_skipn, length_firstn.
  destruct population as [|x l]; [simpl in *; lia|].
  pose proof (Nat.mod_upper_bound g (length (x :: l))). lia.
Qed.

Lemma in_firstn A (x : A) n (l : list A) : In x (firstn n l) -> In x l.
Proof.
  intros H. rewrite <- (firstn_skipn n l). apply in_or_app. now left.
Qed.

Lemma in_skipn A (x : A) n (l : list A) : In x (skipn n l) -> In x l.
Proof.
  intros H. rewrite <- (firstn_skipn n l). apply in_or_app. now right.
Qed.

Lemma counter_sample_incl (g : nat) (population : list str) (k : nat) :
  k <= length population ->
  incl (fst (@sample counter_random g population k)) population.
Proof.
  intros _ x Hx. simpl in Hx. apply in_firstn in Hx. unfold rotate in Hx.
  apply in_app_or in Hx as [Hx|Hx]; [eapply in_skipn | eapply in_firstn];
    eassumption.
Qed.

Lemma output_size_witness :
  length (ok_value (fst stop_run) []) = 22.
Proof.
  rewrite (@output_size counter_random counter_sample_length
             [stop_entry; null_entry] (initial 0)
             (ok_value (fst stop_run) []) (snd stop_run)).
  - vm_compute. reflexivity.
  - vm_compute. reflexivity.
Defined.

Lemma one_diagnostic_per_skipped_entry_witness :
  printed (snd stop_run) = [TypeError].
Proof.
  rewrite (@one_diagnostic_per_skipped_entry counter_random
             [stop_entry; null_entry] (initial 0)
             (ok_value (fst stop_run) []) (snd stop_run)).
  - reflexivity.
  - vm_compute. reflexivity.
Defined.

Lemma generate_qa_pairs_app_witness :
  fst (generate_qa_pairs ([stop_entry] ++ [one_keyword_entry]) (initial 0))
  = Ok (ok_value (fst (generate_qa_pairs [stop_entry] (initial 0))) []
        ++ ok_value (fst (generate_qa_pairs [one_keyword_entry]
                            (snd (generate_qa_pairs [stop_entry] (initial 0))))) []).
Proof.
  rewrite (@generate_qa_pairs_app counter_random
             [stop_entry] [one_keyword_entry] (initial 0)
             (ok_value (fst (generate_qa_pairs [stop_entry] (initial 0))) [])
             (snd (generate_qa_pairs [stop_entry] (initial 0)))
             (ok_value (fst (generate_qa_pairs [one_keyword_entry]
                               (snd (generate_qa_pairs [stop_entry] (initial 0))))) [])
             (snd (generate_qa_pairs [one_keyword_entry]
                     (snd (generate_qa_pairs [stop_entry] (initial 0)))))).
  - reflexivity.
  - vm_compute. reflexivity.
  - vm_compute. reflexivity.
Defined.

Lemma keyword_chunks_from_extracted_witness :
  exists kw_chunks : list (list qa_pair), length kw_chunks = 2.
Proof.
  destruct (@keyword_chunks_from_extracted counter_random
              counter_sample_length counter_sample_incl
              (JStr (lit "stop.png")) stop_text (initial 0))
    as (name & sections & section_part & kw_chunks & draws & st'
        & _ & _ & _ & _ & Hn & _).
  exists kw_chunks. rewrite Hn. vm_compute. reflexivity.
Defined.

(* ===================================================================== *)
(** ** The run as a whole *)
(* ===================================================================== *)

Lemma well_formed_mapping (entry : json) :
  well_formed entry -> exists d, entry = JObj d.
Proof. intros [(d & v & -> & _) _]. now exists d. Qed.

Lemma load_handbook_well_formed (entries : list json) :
  Forall well_formed entries -> load_handbook (JList entries) = Ok entries.
Proof.
  intros H.
  assert (Hmap : Forall (fun entry => exists d, entry = JObj d) entries)
    by (eapply Forall_impl; [apply well_formed_mapping | exact H]).
  unfold load_handbook.
  now rewrite (proj1 (check_entries_mappings Hmap) H).
Qed.

Section MainFacts.

Context {R : Random}.

(** X10. When the input file holds a list of mappings that all have the
    two fields and the output file can be opened, [main] writes to it the
    records [generate_qa_pairs] returns for that list, after the
    diagnostics of the skipped entries it prints the number of records
    written, and it leaves the generator where the run left it. *)
Theorem main_writes_the_records (entries : list json) (w : world) :
  Forall well_formed entries ->
  exists qa st',
    generate_qa_pairs entries
      {| generator := w_generator w; qa_pairs := []; printed := [] |}
    = (Ok qa, st') /\
    main (Some (JList entries)) true w
    = {| w_generator := generator st';
         output_file := Some qa;
         console := console w ++ map SkippedEntry (printed st')
                    ++ [GeneratedPairs (length qa); SavedTo] |}.
Proof.
  intros H. unfold main. rewrite (load_handbook_well_formed H).
  destruct (generate_well_formed
              {| generator := w_generator w; qa_pairs := []; printed := [] |} H)
    as (chunks & g & E & _).
  rewrite E. eexists. eexists. split; reflexivity.
Qed.


End MainFacts.

Lemma main_writes_the_records_witness :
  output_file (main (Some (JList [stop_entry; null_entry])) true
                    (@Build_world counter_random 0 None []))
  = Some (ok_value (fst stop_run) []).
Proof.
  destruct (@main_writes_the_records counter_random [stop_entry; null_entry]
              (@Build_world counter_random 0 None []))
    as (qa & st' & Hrun & Hmain).
  - repeat constructor; eexists; eexists; split; reflexivity.
  - rewrite Hmain. cbn [output_file]. f_equal.
    change (generate_qa_pairs [stop_entry; null_entry] (initial 0) = (Ok qa, st'))
      in Hrun.
    unfold stop_run. now rewrite Hrun.
Defined.


(* ===================================================================== *)
(** ** Further properties of the extractor *)
(* ===================================================================== *)

(** X12. [extract_flowchart_sections] returns for every text, whatever it
    holds, and raises [TypeError] for every value that is not a text: no
    other exception leaves it. *)
Theorem extract_flowchart_sections_returns (gt : json) :
  ((exists s, gt = JStr s) ->
   exists name sections, extract_flowchart_sections gt = Ok (name, sections)) /\
  ((forall s, gt <> JStr s) ->
   extract_flowchart_sections gt = Raise TypeError).
Proof.
  split.
  - intros [s ->]. rewrite extract_flowchart_sections_str. eauto.
  - apply extract_flowchart_sections_not_str.
Qed.

Lemma Forall_False_nil A (P : A -> Prop) (l : list A) :
  Forall P l -> (forall x, ~ P x) -> l = [].
Proof.
  intros H Hno. destruct H as [|x l Hx _]; [reflexivity|].
  now destruct (Hno x).
Qed.

(** X13. A section tag that no marker follows is dropped, body and all:
    a text in which no [<section title], [KEY WORDS] or [</traffic_sign>]
    comes after the opening of a section tag has no section. *)
Theorem section_without_marker_is_dropped (s : str) :
  (forall before mid rest,
      s = before ++ (lit "<section title=" ++ [dquote]) ++ mid ++ rest ->
      ~ section_end rest) ->
  exists name, extract_flowchart_sections (JStr s) = Ok (name, []).
Proof.
  intros Hno. exists (sign_name_of s).
  rewrite extract_flowchart_sections_str. do 2 f_equal.
  unfold sections_of, section_blocks.
  rewrite (Forall_False_nil (section_matches_first_end s)); [reflexivity|].
  intros m (before & here & rest & title & body & -> & _ & _ & -> & Hend & _).
  apply (Hno before (title ++ (dquote :: lit ">") ++ body) rest); [|assumption].
  now rewrite <- !app_assoc.
Qed.

Lemma no_marker_after_tag_sound (s : str) :
  no_marker_after_tag s = true ->
  forall before mid rest,
    s = before ++ (lit "<section title=" ++ [dquote]) ++ mid ++ rest ->
    ~ section_end rest.
Proof.
  intros H before. revert s H.
  induction before as [|c before IH]; intros s H mid rest ->.
  - cbn [app] in H. destruct ((lit "<section title=" ++ [dquote]) ++ mid ++ rest)
      as [|x l] eqn:E; [discriminate E|].
    cbn [no_marker_after_tag] in H. rewrite <- E in H.
    rewrite strip_prefix_self in H.
    apply andb_true_iff in H as [H _].
    apply andb_true_iff in H as [H H3]. apply andb_true_iff in H as [H1 H2].
    apply negb_true_iff in H1, H2, H3.
    intros [[t ->]|[[t ->]|[t ->]]].
    + now rewrite contains_substring in H1.
    + now rewrite contains_substring in H2.
    + now rewrite contains_substring in H3.
  - cbn [app no_marker_after_tag] in H. apply andb_true_iff in H as [_ H].
    now apply (IH _ H mid rest).
Qed.

Lemma section_without_marker_is_dropped_witness :
  exists name,
    extract_flowchart_sections
      (JStr (py "<traffic_sign name=`Stop`><section title=`1`>Stop here."))
    = Ok (name, []).
Proof.
  apply section_without_marker_is_dropped.
  apply no_marker_after_tag_sound. vm_compute. reflexivity.
Defined.

Lemma store_blocks_snoc blocks block d :
  store_blocks (blocks ++ [block]) d
  = dict_set (store_blocks blocks d) (fst block) (snd block).
Proof. now rewrite store_blocks_app. Qed.

(** X14. The sections are kept in the order in which their titles first
    occur in the text: a later block with a title seen before changes the
    body, not the place. *)
Theorem sections_in_order_of_first_occurrence (s : str) name sections :
  extract_flowchart_sections (JStr s) = Ok (name, sections) ->
  keys sections = rev (nodup str_dec (rev (map fst (section_blocks s)))).
Proof.
  rewrite extract_flowchart_sections_str. intros H. injection H as _ <-.
  unfold sections_of.
  induction (section_blocks s) as [|block blocks IH] using rev_ind;
    [reflexivity|].
  rewrite store_blocks_snoc, keys_dict_set, IH, map_app, rev_app_distr.
  cbn [map rev app nodup].
  destruct (in_dec str_dec (fst block) (rev (map fst blocks))) as [Hin|Hnot].
  - assert (E : existsb (str_eqb (fst block))
                        (rev (nodup str_dec (rev (map fst blocks)))) = true).
    { apply existsb_str_eqb. rewrite <- in_rev. now apply nodup_In. }
    now rewrite E.
  - assert (E : existsb (str_eqb (fst block))
                        (rev (nodup str_dec (rev (map fst blocks)))) = false).
    { destruct (existsb _ _) eqn:E; [|reflexivity].
      apply existsb_str_eqb in E. rewrite <- in_rev in E.
      apply nodup_In in E. contradiction. }
    now rewrite E.
Qed.

Lemma sections_in_order_of_first_occurrence_witness :
  keys [(lit "1", lit "Second"); (lit "2", lit "Other")] = [lit "1"; lit "2"].
Proof.
  rewrite (@sections_in_order_of_first_occurrence twice_text (lit "Unknown")
             [(lit "1", lit "Second"); (lit "2", lit "Other")]).
  - vm_compute. reflexivity.
  - vm_compute. reflexivity.
Defined.

(* ===================================================================== *)
(** ** Properties of the keyword extraction *)
(* ===================================================================== *)

Section KeywordFacts.
Import Re ReFacts ReSound Patterns.

Lemma strip_prefix_same_letters fl (p s rest : str) :
  ignorecase fl = true ->
  strip_prefix (chr_eq fl) p s = Some rest ->
  exists m, s = m ++ rest /\ same_letters m p.
Proof.
  intros Hfl. unfold same_letters. revert s.
  induction p as [|x p IH]; intros s; simpl.
  - intros H; injection H as ->. now exists [].
  - destruct s as [|y s]; [discriminate|].
    destruct (chr_eq fl x y) eqn:E; [|discriminate].
    intros H. destruct (IH _ H) as (m & -> & Hm). exists (y :: m).
    split; [reflexivity|]. simpl. unfold chr_eq in E. rewrite Hfl in E.
    apply Ascii.eqb_eq in E. now rewrite E, Hm.
Qed.

Lemma matches_Opt_inv fl a (s rest : str) c c' :
  matches fl (Opt a) s c rest c' ->
  c' = c /\ (s = rest \/ exists x, s = x :: rest /\ atom_ok fl a x = true).
Proof. inversion 1; subst; split; eauto. Qed.

(** The shape of a match of the keyword marker pattern: the marker in some
    case, then the text of the group. *)
Lemma key_words_shape (here rest : str) c :
  match_here IGNORECASE_DOTALL KEY_WORDS_RE here = Some (rest, c) ->
  exists marker tail kw_section,
    here = marker ++ tail ++ kw_section ++ rest /\
    c = [(1, kw_section)] /\
    (same_letters marker (lit "KEYWORD") \/ same_letters marker (lit "KEY WORD")).
Proof.
  intros H. apply match_here_sound in H. unfold KEY_WORDS_RE in H.
  apply matches_Cat_inv in H as (s1 & c1 & Hkey & H).
  apply matches_Lit_inv in Hkey as [-> Hkey].
  apply strip_prefix_same_letters in Hkey as (k & -> & Hk); [|reflexivity].
  apply matches_Cat_inv in H as (s2 & c2 & Hsp & H).
  apply matches_Opt_inv in Hsp as [-> Hsp].
  apply matches_Cat_inv in H as (s3 & c3 & Hword & H).
  apply matches_Lit_inv in Hword as [-> Hword].
  apply strip_prefix_same_letters in Hword as (wd & -> & Hw); [|reflexivity].
  apply matches_Cat_inv in H as (s4 & c4 & Hs & H).
  apply matches_Opt_inv in Hs as [-> Hs].
  apply matches_Group_inv in H as (c5 & -> & H).
  apply matches_Star_inv in H as (run & -> & -> & _).
  rewrite consumed_app.
  assert (Htail : exists tail, s3 = tail ++ run ++ rest).
  { destruct Hs as [->|(x & -> & _)]; [now exists [] | now exists [x]]. }
  destruct Htail as [tail ->]. unfold same_letters in *.
  destruct Hsp as [->|(x & -> & Hx)].
  - exists (k ++ wd), tail, run. split; [now rewrite <- !app_assoc|].
    split; [reflexivity|]. left. rewrite map_app, Hk, Hw. reflexivity.
  - exists (k ++ x :: wd), tail, run.
    split; [now rewrite <- !app_assoc|]. split; [reflexivity|]. right.
    change (Ascii.eqb (lower " "%char) (lower x) = true) in Hx.
    apply Ascii.eqb_eq in Hx.
    rewrite map_app. cbn [map]. rewrite Hk, Hw, <- Hx. reflexivity.
Qed.

(** The shape of a match of the quoted pattern: a keyword between two
    double quotes, with no double quote and no line break inside. *)
Lemma quoted_shape (here rest : str) c :
  match_here no_flags QUOTED_RE here = Some (rest, c) ->
  exists kw,
    c = [(1, kw)] /\ here = dquote :: kw ++ dquote :: rest /\
    ~ In dquote kw /\ ~ In newline kw.
Proof.
  unfold match_here, QUOTED_RE. cbn [exec].
  destruct (strip_prefix (chr_eq no_flags) [dquote] here) as [s1|] eqn:E1;
    [|discriminate].
  apply strip_prefix_exact in E1; [|intros a b; now apply chr_eq_exact].
  unfold star. intros H.
  apply lazy_star_first in H as (run & rest' & -> & Hrun & H & Hfirst).
  destruct (strip_prefix (chr_eq no_flags) [dquote] rest') as [s3|] eqn:E3;
    [|discriminate].
  apply strip_prefix_exact in E3; [|intros a b; now apply chr_eq_exact].
  injection H as <- <-. subst. exists run. rewrite consumed_app.
  split; [reflexivity|]. split; [reflexivity|]. split.
  - intros Hin. apply in_split in Hin as (r1 & r2 & ->).
    specialize (Hfirst r1 (dquote :: r2) eq_refl ltac:(discriminate)).
    cbn [app strip_prefix] in Hfirst. unfold chr_eq in Hfirst. simpl in Hfirst.
    discriminate.
  - now apply dot_no_flags.
Qed.

(** What [extract_keywords] returns on a text in which the marker is
    found at [here], after [before]. *)
Lemma extract_keywords_shape (s : str) kw :
  In kw (extract_keywords (JStr s)) ->
  exists before after,
    s = before ++ dquote :: kw ++ dquote :: after /\
    has_keyword_marker before /\
    ~ In dquote kw /\ ~ In newline kw.
Proof.
  unfold extract_keywords, extract_keywords_try. cbn [as_str rbind].
  destruct (search IGNORECASE_DOTALL KEY_WORDS_RE s) as [c|] eqn:E;
    [|intros []].
  apply search_some in E as (pre & here & rest & -> & Hm).
  apply key_words_shape in Hm as (marker & tail & kw_section & -> & -> & Hmark).
  cbn [group Nat.eqb]. unfold findall. intros Hin.
  apply in_flat_map in Hin as (m & Hm & Hin).
  pose proof (finditer_from_matches no_flags QUOTED_RE kw_section 0) as Hall.
  rewrite Forall_forall in Hall.
  destruct (Hall m Hm) as (b & h & r & -> & Hq).
  apply quoted_shape in Hq as (k & -> & -> & Hnq & Hnl).
  cbn [group Nat.eqb] in Hin. destruct Hin as [<-|[]].
  exists (pre ++ marker ++ tail ++ b), (r ++ rest).
  split; [|split; [|split; assumption]].
  - repeat (rewrite <- app_assoc || rewrite <- app_comm_cons). reflexivity.
  - exists pre, marker, (tail ++ b). split; [|assumption].
    repeat rewrite <- app_assoc. reflexivity.
Qed.

(** X15. Keywords come from a marker only: [extract_keywords] returns
    keywords only for a text that holds KEYWORD or KEY WORD in some case;
    for any other value it returns the empty list. *)
Theorem keywords_need_marker (gt : json) :
  extract_keywords gt <> [] ->
  exists s, gt = JStr s /\ has_keyword_marker s.
Proof.
  intros H. destruct gt; try (now destruct H). exists s. split; [reflexivity|].
  destruct (extract_keywords (JStr s)) as [|kw kws] eqn:E; [now destruct H|].
  destruct (@extract_keywords_shape s kw) as (before & after & -> & Hm & _).
  { rewrite E. now left. }
  destruct Hm as (b & marker & a & -> & Hmark).
  exists b, marker, (a ++ dquote :: kw ++ dquote :: after).
  split; [repeat rewrite <- app_assoc; reflexivity | assumption].
Qed.


End KeywordFacts.

Lemma keywords_need_marker_witness :
  exists s, JStr stop_text = JStr s /\ has_keyword_marker s.
Proof.
  apply (@keywords_need_marker (JStr stop_text)). vm_compute. discriminate.
Defined.

(* ===================================================================== *)
(** ** Names, titles and bodies are trimmed *)
(* ===================================================================== *)

Section Whitespace.
Import Re ReFacts.

Lemma lstrip_length (s : str) : length (lstrip s) <= length s.
Proof.
  induction s as [|c s IH]; simpl; [lia|].
  destruct (is_space c); simpl; lia.
Qed.

Lemma lstrip_head (s : str) :
  match lstrip s with
  | [] => True
  | c :: _ => is_space c = false
  end.
Proof.
  induction s as [|c s IH]; simpl; [exact I|].
  destruct (is_space c) eqn:E; [exact IH | exact E].
Qed.

Lemma lstrip_fixed (s : str) :
  match s with [] => True | c :: _ => is_space c = false end ->
  lstrip s = s.
Proof. destruct s as [|c s]; simpl; [reflexivity|]. now intros ->. Qed.

Lemma lstrip_lstrip (s : str) : lstrip (lstrip s) = lstrip s.
Proof. apply lstrip_fixed, lstrip_head. Qed.

Lemma lstrip_skipn (s : str) :
  skipn (length s - length (lstrip s)) s = lstrip s.
Proof.
  induction s as [|c s IH]; [reflexivity|]. cbn [lstrip].
  destruct (is_space c).
  - pose proof (lstrip_length s).
    replace (length (c :: s) - length (lstrip s))
      with (S (length s - length (lstrip s))) by (cbn [length]; lia).
    exact IH.
  - now rewrite Nat.sub_diag.
Qed.

Lemma clean_end_snoc (m : str) c : clean_end (m ++ [c]) = negb (is_space c).
Proof.
  induction m as [|x m IH]; [reflexivity|].
  cbn [app clean_end]. destruct (m ++ [c]) eqn:E; [|exact IH].
  now destruct m.
Qed.

Lemma clean_end_rstrip (s : str) : clean_end (rstrip s) = true.
Proof.
  unfold rstrip. pose proof (lstrip_head (rev s)) as H.
  destruct (lstrip (rev s)) as [|c l]; [reflexivity|].
  cbn [rev]. now rewrite clean_end_snoc, H.
Qed.

Lemma clean_end_tail c (s : str) :
  clean_end (c :: s) = true -> clean_end s = true.
Proof. destruct s; [reflexivity | trivial]. Qed.

Lemma clean_end_lstrip (s : str) :
  clean_end s = true -> clean_end (lstrip s) = true.
Proof.
  induction s as [|c s IH]; [reflexivity|]. intros H. cbn [lstrip].
  destruct (is_space c); [|exact H]. apply IH. eapply clean_end_tail, H.
Qed.

(** [rstrip] keeps a first character that is not whitespace. *)
Lemma rstrip_head c (s : str) :
  is_space c = false -> exists t, rstrip (c :: s) = c :: t.
Proof.
  intros Hc. unfold rstrip. cbn [rev].
  assert (H : exists m, lstrip (rev s ++ [c]) = m ++ [c]).
  { induction (rev s) as [|x l IH]; simpl.
    - rewrite Hc. now exists [].
    - destruct (is_space x); [exact IH | now exists (x :: l)]. }
  destruct H as [m ->]. rewrite rev_app_distr. simpl. eauto.
Qed.

Lemma strip_head (s : str) :
  match strip s with
  | [] => True
  | c :: _ => is_space c = false
  end.
Proof.
  unfold strip. pose proof (lstrip_head s) as H.
  destruct (lstrip s) as [|c l]; [exact I|].
  destruct (@rstrip_head c l H) as [t ->]. exact H.
Qed.

Lemma rstrip_rstrip (s : str) : rstrip (rstrip s) = rstrip s.
Proof. unfold rstrip. now rewrite rev_involutive, lstrip_lstrip. Qed.

(** [strip] changes nothing in a text it has stripped. *)
Lemma strip_strip (s : str) : strip (strip s) = strip s.
Proof.
  unfold strip at 1. rewrite (lstrip_fixed _ (strip_head s)).
  unfold strip. apply rstrip_rstrip.
Qed.

Lemma greedy_space_all A (s : str) (f : str -> A) :
  greedy_star no_flags Space s (fun s' => Some (f s')) = Some (f (lstrip s)).
Proof.
  induction s as [|c s IH]; [reflexivity|]. cbn [greedy_star lstrip atom_ok].
  destruct (is_space c); [|reflexivity]. now rewrite IH.
Qed.

Lemma whitespace_match_here (s : str) :
  match_here no_flags WHITESPACE_RE s
  = match s with
    | c :: s' => if is_space c then Some (lstrip s', []) else None
    | [] => None
    end.
Proof.
  unfold match_here, WHITESPACE_RE. cbn [exec star atom_ok].
  destruct s as [|c s]; [reflexivity|].
  destruct (is_space c); [|reflexivity].
  apply (greedy_space_all s (fun s' => (s', []))).
Qed.

Lemma sub_from_skip fl r repl (s : str) k :
  k <= length s ->
  sub_from fl r repl s k = sub_from fl r repl (skipn k s) 0.
Proof.
  revert s. induction k as [|k IH]; intros s H; [reflexivity|].
  destruct s as [|c s]; [simpl in H; lia|].
  cbn [sub_from skipn]. apply IH. simpl in H. lia.
Qed.

(** [re.sub] of the whitespace pattern, character by character: a run of
    whitespace gives the replacement, any other character stays. *)
Lemma sub_whitespace_cons repl c (s : str) :
  sub no_flags WHITESPACE_RE repl (c :: s)
  = if is_space c
    then repl ++ sub no_flags WHITESPACE_RE repl (lstrip s)
    else c :: sub no_flags WHITESPACE_RE repl s.
Proof.
  unfold sub. cbn [sub_from]. rewrite whitespace_match_here.
  destruct (is_space c); [|reflexivity]. f_equal.
  pose proof (lstrip_length s).
  replace (length (c :: s) - length (lstrip s) - 1)
    with (length s - length (lstrip s)) by (cbn [length]; lia).
  rewrite sub_from_skip by lia. now rewrite lstrip_skipn.
Qed.

Lemma sub_whitespace_nil repl : sub no_flags WHITESPACE_RE repl [] = [].
Proof. reflexivity. Qed.

(** Collapsing the whitespace of a text that does not end with
    whitespace leaves single spaces only. *)
Lemma sub_single_spaced (s : str) :
  clean_end s = true ->
  single_spaced (sub no_flags WHITESPACE_RE (lit " ") s) = true.
Proof.
  remember (length s) as n eqn:Hn. revert s Hn.
  induction n as [n IH] using lt_wf_ind. intros s Hn Hclean.
  destruct s as [|c s]; [reflexivity|].
  rewrite sub_whitespace_cons. destruct (is_space c) eqn:Hc.
  - assert (Hs : clean_end s = true /\ s <> []).
    { destruct s; [|split; [exact Hclean | discriminate]].
      simpl in Hclean. rewrite Hc in Hclean. discriminate. }
    destruct Hs as [Hs Hne].
    pose proof (lstrip_head s) as Hh. pose proof (lstrip_length s) as Hl.
    pose proof (clean_end_lstrip s Hs) as Hcl.
    destruct (lstrip s) as [|d t] eqn:El.
    + exfalso. clear - Hs Hne El.
      induction s as [|x s IH]; [congruence|]. simpl in El.
      destruct (is_space x) eqn:Hx; [|discriminate].
      destruct s as [|y s]; [simpl in Hs; rewrite Hx in Hs; discriminate|].
      apply IH; [exact Hs | discriminate | exact El].
    + assert (Ht : single_spaced (sub no_flags WHITESPACE_RE (lit " ") (d :: t)) = true).
      { apply (IH (length (d :: t))); [simpl in *; subst n; simpl; lia | reflexivity | exact Hcl]. }
      rewrite sub_whitespace_cons, Hh in Ht |- *.
      change (lit " " ++ d :: sub no_flags WHITESPACE_RE (lit " ") t)
        with (" "%char :: d :: sub no_flags WHITESPACE_RE (lit " ") t).
      cbn [single_spaced] in Ht |- *. rewrite Hh in Ht |- *.
      exact Ht.
  - cbn [single_spaced]. rewrite Hc. cbn [andb].
    apply (IH (length s)); [subst n; simpl; lia | reflexivity |].
    eapply clean_end_tail, Hclean.
Qed.

Lemma sub_whitespace_head (s : str) :
  match s with [] => True | c :: _ => is_space c = false end ->
  match sub no_flags WHITESPACE_RE (lit " ") s with
  | [] => True
  | c :: _ => is_space c = false
  end.
Proof.
  destruct s as [|c s]; [intros _; exact I|]. intros Hc.
  now rewrite sub_whitespace_cons, Hc.
Qed.

Lemma clean_end_strip (s : str) : clean_end (strip s) = true.
Proof. apply clean_end_rstrip. Qed.

Lemma In_dict_set V (d : dict V) k v (item : str * V) :
  In item (dict_set d k v) -> item = (k, v) \/ In item d.
Proof.
  induction d as [|[k' v'] d IH]; simpl.
  - intros [<-|[]]. now left.
  - destruct (str_eqb k' k) eqn:E.
    + apply str_eqb_eq in E. subst k'. simpl. intros [<-|H]; auto.
    + simpl. intros [<-|H]; auto. destruct (IH H); auto.
Qed.

Lemma In_store_blocks blocks d (item : str * str) :
  In item (store_blocks blocks d) -> In item blocks \/ In item d.
Proof.
  revert d. induction blocks as [|[k v] blocks IH]; intros d; simpl; [auto|].
  change (In item (store_blocks blocks (dict_set d k v)) ->
          ((k, v) = item \/ In item blocks) \/ In item d).
  intros H. apply IH in H as [H|H]; [auto|].
  apply In_dict_set in H as [->|H]; auto.
Qed.

(** X17. What the extractor returns is trimmed: the sign name and every
    section title have no whitespace at either end, and every section
    body has no whitespace at its front and no whitespace inside or at
    its end but single spaces between other characters. *)
Theorem extracted_texts_are_trimmed (s : str) name sections :
  extract_flowchart_sections (JStr s) = Ok (name, sections) ->
  strip name = name /\
  Forall (fun item =>
            strip (fst item) = fst item /\
            lstrip (snd item) = snd item /\
            single_spaced (snd item) = true)
         sections.
Proof.
  rewrite extract_flowchart_sections_str. intros H. injection H as <- <-.
  split.
  - unfold sign_name_of.
    destruct (search no_flags SIGN_NAME_RE s) as [m|]; [|reflexivity].
    destruct (group m 1); [apply strip_strip | reflexivity].
  - apply Forall_forall. intros item Hin. unfold sections_of in Hin.
    apply In_store_blocks in Hin as [Hin|[]]. unfold section_blocks in Hin.
    apply in_flat_map in Hin as (m & _ & Hin).
    unfold block_of, group_strip in Hin.
    destruct (group m 1) as [t|]; [|destruct Hin].
    destruct (group m 2) as [b|]; [|destruct Hin].
    cbn [rbind] in Hin. destruct Hin as [<-|[]]. cbn [fst snd].
    split; [apply strip_strip|]. split.
    + apply lstrip_fixed, sub_whitespace_head, strip_head.
    + apply sub_single_spaced, clean_end_strip.
Qed.

End Whitespace.

Lemma extracted_texts_are_trimmed_witness :
  single_spaced (lit "Come to a full stop.") = true.
Proof.
  destruct (@extracted_texts_are_trimmed
              (py "<traffic_sign name=` Stop `><section title=` 1 `>  Come   to a
 full stop.  </traffic_sign>")
              (lit "Stop") [(lit "1", lit "Come to a full stop.")])
    as [_ Hall].
  - vm_compute. reflexivity.
  - inversion Hall as [|? ? (_ & _ & H) _]. exact H.
Defined.

(* ===================================================================== *)
(** ** The sign name is the name of the first tag *)
(* ===================================================================== *)

Section FirstTag.
Import Re ReFacts ReSound Patterns.

(** The match of the sign-name pattern at the front of a text: the name is
    the shortest one that the closing of the tag follows. *)
Lemma sign_name_shortest (here rest : str) c :
  match_here no_flags SIGN_NAME_RE here = Some (rest, c) ->
  exists x run,
    c = [(1, x :: run)] /\
    here = (lit "<traffic_sign name=" ++ [dquote]) ++ (x :: run)
           ++ (dquote :: lit ">") ++ rest /\
    forall r1 r2, run = r1 ++ r2 -> r2 <> [] ->
                  ~ starts_with (dquote :: lit ">") (r2 ++ (dquote :: lit ">") ++ rest).
Proof.
  unfold match_here, SIGN_NAME_RE. cbn [exec].
  destruct (strip_prefix (chr_eq no_flags) (lit "<traffic_sign name=" ++ [dquote]) here)
    as [s1|] eqn:Eopen; [|discriminate].
  apply strip_prefix_exact in Eopen; [|intros a b; now apply chr_eq_exact].
  destruct s1 as [|x s2]; [discriminate|].
  destruct (atom_ok no_flags Dot x); [|discriminate].
  unfold star. intros H.
  apply lazy_star_first in H as (run & rest' & -> & _ & H & Hfirst).
  destruct (strip_prefix (chr_eq no_flags) (dquote :: lit ">") rest') as [s3|] eqn:Eclose;
    [|discriminate].
  apply strip_prefix_exact in Eclose; [|intros a b; now apply chr_eq_exact].
  injection H as <- <-. subst. exists x, run.
  split; [now rewrite app_comm_cons, consumed_app|]. split; [reflexivity|].
  intros r1 r2 Hr Hne [t Ht]. specialize (Hfirst r1 r2 Hr Hne).
  cbv beta in Hfirst. rewrite Ht in Hfirst.
  now rewrite strip_prefix_app in Hfirst by apply chr_eq_refl.
Qed.

(** A tag at the front of a text is matched there. *)
Lemma tag_at_match_here (s : str) :
  tag_at s -> match_here no_flags SIGN_NAME_RE s <> None.
Proof.
  intros (name & after & -> & Hne & Hnl).
  destruct name as [|x run]; [congruence|].
  apply dot_no_flags in Hnl. cbn [forallb] in Hnl.
  apply andb_true_iff in Hnl as [Hx Hrun].
  unfold match_here, SIGN_NAME_RE. cbn [exec].
  rewrite strip_prefix_app by apply chr_eq_refl.
  cbn [app]. rewrite Hx. unfold star.
  match goal with
  | |- context [lazy_star _ _ _ ?k] =>
      destruct (@lazy_star_complete no_flags _ Dot run
                  (dquote :: lit ">" ++ after) k Hrun) as [y Hy]
  end.
  - change (dquote :: lit ">" ++ after) with ((dquote :: lit ">") ++ after).
    rewrite strip_prefix_app by apply chr_eq_refl. discriminate.
  - rewrite Hy. discriminate.
Qed.

Lemma match_here_tag_at (s rest : str) c :
  match_here no_flags SIGN_NAME_RE s = Some (rest, c) -> tag_at s.
Proof.
  intros H. apply sign_name_shape in H as (name & _ & -> & Hne & Hdot).
  exists name, rest. repeat split; [assumption | now apply dot_no_flags].
Qed.

(** [re.search] returns the match at the first position that has one. *)
Lemma search_first fl r (before here : str) m :
  (forall b1 b2, before = b1 ++ b2 -> b2 <> [] ->
                 match_here fl r (b2 ++ here) = None) ->
  match_here fl r here = Some m ->
  search fl r (before ++ here) = Some (snd m).
Proof.
  intros Hnone Hm. induction before as [|x before IH].
  - cbn [app]. destruct here; cbn [search]; rewrite Hm; now destruct m.
  - pose proof (Hnone [] (x :: before) eq_refl ltac:(discriminate)) as H0.
    cbn [app] in H0. cbn [app search]. rewrite H0.
    apply IH. intros b1 b2 -> Hne. apply (Hnone (x :: b1) b2); auto.
Qed.

(** X18. The sign name is the name of the first sign tag of the text,
    taken up to the first closing of the tag and stripped: for a text
    with no tag before the tag in question, whose name holds no closing
    of the tag after its first character, the extractor returns that
    name without the whitespace at its ends. *)
Theorem sign_name_is_first_tag (before name after : str) :
  name <> [] -> ~ In newline name ->
  (forall b1 b2, before = b1 ++ b2 -> b2 <> [] ->
      ~ tag_at (b2 ++ (lit "<traffic_sign name=" ++ [dquote]) ++ name
                   ++ (dquote :: lit ">") ++ after)) ->
  (forall n1 n2, name = n1 ++ n2 -> n1 <> [] -> n2 <> [] ->
      ~ starts_with (dquote :: lit ">") (n2 ++ (dquote :: lit ">") ++ after)) ->
  exists sections,
    extract_flowchart_sections
      (JStr (before ++ (lit "<traffic_sign name=" ++ [dquote]) ++ name
                    ++ (dquote :: lit ">") ++ after))
    = Ok (strip name, sections).
Proof.
  intros Hne Hnl Hbefore Hshort.
  set (here := (lit "<traffic_sign name=" ++ [dquote]) ++ name
               ++ (dquote :: lit ">") ++ after) in *.
  exists (sections_of (before ++ here)).
  rewrite extract_flowchart_sections_str. f_equal. f_equal.
  assert (Htag : tag_at here) by (now exists name, after).
  destruct (match_here no_flags SIGN_NAME_RE here) as [[rest c]|] eqn:Hm;
    [|now apply tag_at_match_here in Htag].
  unfold sign_name_of.
  rewrite (@search_first no_flags SIGN_NAME_RE before here (rest, c)); [| |exact Hm].
  2:{ intros b1 b2 Hb Hb2.
      destruct (match_here no_flags SIGN_NAME_RE (b2 ++ here)) as [[r' c']|] eqn:E;
        [|reflexivity].
      apply match_here_tag_at in E. now destruct (Hbefore b1 b2 Hb Hb2). }
  cbn [snd].
  apply sign_name_shortest in Hm as (x & run & -> & Ehere & Hfirst).
  cbn [group Nat.eqb]. f_equal.
  unfold here in Ehere. apply app_inv_head in Ehere.
  destruct name as [|y name']; [congruence|].
  cbn [app] in Ehere. injection Ehere as -> Erun. f_equal.
  apply app_eq_app in Erun as [d [[E1 E2]|[E1 E2]]].
  - (* the match stops before the end of the name *)
    destruct d as [|z d]; [now rewrite app_nil_r in E1|].
    exfalso. apply (Hshort (x :: run) (z :: d)); [now rewrite E1 | discriminate
                                                  | discriminate |].
    exists rest. exact (eq_sym E2).
  - (* the match goes on after the end of the name *)
    destruct d as [|z d]; [now rewrite app_nil_r in E1|].
    exfalso. apply (Hfirst name' (z :: d) E1 ltac:(discriminate)).
    exists after. exact (eq_sym E2).
Qed.

(** No tag starts in a text without [<]. *)
Lemma no_tag_without_lt (before here : str) :
  ~ In "<"%char before ->
  forall b1 b2, before = b1 ++ b2 -> b2 <> [] -> ~ tag_at (b2 ++ here).
Proof.
  intros Hlt b1 b2 -> Hne (name & rest & E & _).
  destruct b2 as [|c b2]; [congruence|]. injection E as -> _.
  apply Hlt. apply in_or_app. right. now left.
Qed.

(** A name without a double quote holds no closing of the tag. *)
Lemma no_closing_without_quote (name after : str) :
  ~ In dquote name ->
  forall n1 n2, name = n1 ++ n2 -> n1 <> [] -> n2 <> [] ->
    ~ starts_with (dquote :: lit ">") (n2 ++ (dquote :: lit ">") ++ after).
Proof.
  intros Hq n1 n2 -> _ Hne [t E].
  destruct n2 as [|c n2]; [congruence|]. injection E as -> _.
  apply Hq. apply in_or_app. right. now left.
Qed.

End FirstTag.

Lemma sign_name_is_first_tag_witness :
  exists sections,
    extract_flowchart_sections
      (JStr (lit "Sign: " ++ (lit "<traffic_sign name=" ++ [dquote]) ++ lit " Stop Sign "
               ++ (dquote :: lit ">") ++ py "<traffic_sign name=`Yield`>"))
    = Ok (lit "Stop Sign", sections).
Proof.
  apply (@sign_name_is_first_tag (lit "Sign: ") (lit " Stop Sign ")
           (py "<traffic_sign name=`Yield`>")).
  - discriminate.
  - vm_compute. intuition discriminate.
  - apply no_tag_without_lt. vm_compute. intuition discriminate.
  - apply no_closing_without_quote. vm_compute. intuition discriminate.
Defined.

(* ===================================================================== *)
(** ** The further properties on the example inputs *)
(* ===================================================================== *)

Lemma load_handbook_accepts_witness :
  load_handbook (JList [stop_entry; JStr plain_string])
  = Ok [stop_entry; JStr plain_string].
Proof.
  apply (proj2 (load_handbook_accepts (JList [stop_entry; JStr plain_string])
                                      [stop_entry; JStr plain_string])).
  split; [reflexivity|]. repeat constructor.
Defined.

Lemma generate_returns_iff_well_formed_witness :
  exists out st', generate_qa_pairs [stop_entry; null_entry] (initial 0) = (Ok out, st').
Proof.
  apply (proj2 (@generate_returns_iff_well_formed counter_random
                  [stop_entry; null_entry] (initial 0))).
  repeat constructor; eexists; eexists; split; reflexivity.
Defined.

Lemma extract_flowchart_sections_returns_witness :
  (exists name sections,
      extract_flowchart_sections (JStr stop_text) = Ok (name, sections)) /\
  extract_flowchart_sections (JNum 3) = Raise TypeError.
Proof.
  split.
  - apply (proj1 (extract_flowchart_sections_returns (JStr stop_text))).
    now exists stop_text.
  - apply (proj2 (extract_flowchart_sections_returns (JNum 3))). discriminate.
Defined.
